(** * Bit-reversal self-test harness (sw/helloworld.c)

    A shallow embedding of the bring-up program: the software reference
    model [reverse_bits_k], the integer square root [isqrt], and the
    driver [bitrev_selftest] that talks to the memory-mapped accelerator.

    Machine words ([uint32_t]) are integers in [[0, 2^32)]; every C
    operation that can leave that range is followed by [u32]. *)

From Stdlib Require Import ZArith Lia List Bool String Ascii.
From ITree Require Import ITree Eq.Shallow.
Import ListNotations.
Import ITreeNotations.
Local Open Scope Z_scope.
Local Open Scope itree_scope.

(** ** 32-bit unsigned arithmetic *)

Definition u32 (x : Z) : Z := x mod 2 ^ 32.

Definition add32 (a b : Z) : Z := u32 (a + b).
Definition sub32 (a b : Z) : Z := u32 (a - b).
Definition shl32 (a k : Z) : Z := u32 (Z.shiftl a k).
Definition shr32 (a k : Z) : Z := Z.shiftr a k.

(** ** Configuration constants

    [#define K 10u] and [#define N (1u << K)]. *)

Definition K : Z := 10.
Definition N : Z := shl32 1 K.

(** ** The reference model

    [static inline uint32_t reverse_bits_k(uint32_t x)], statement by
    statement. *)

Definition reverse_bits_k (x : Z) : Z :=
  let x := Z.lor (shl32 (Z.land x 0x55555555) 1) (shr32 (Z.land x 0xAAAAAAAA) 1) in
  let x := Z.lor (shl32 (Z.land x 0x33333333) 2) (shr32 (Z.land x 0xCCCCCCCC) 2) in
  let x := Z.lor (shl32 (Z.land x 0x0F0F0F0F) 4) (shr32 (Z.land x 0xF0F0F0F0) 4) in
  let x := Z.lor (shl32 (Z.land x 0x00FF00FF) 8) (shr32 (Z.land x 0xFF00FF00) 8) in
  let x := Z.lor (shl32 x 16) (shr32 x 16) in
  shr32 x (sub32 32 K).

(** ** The SoC as seen by the program

    Every access to the outside world is an event: the three volatile
    registers of the accelerator, the ROM bytes read through the pointer
    in [read_name], and the calls into the driver layer declared in
    [uart.h], [print.h], [timer.h], [gpio.h] and [util.h].  What a read
    returns is up to the environment; nothing below depends on it being
    a 32-bit value. *)

Variant socE : Type -> Type :=
| WriteIN (v : Z) : socE unit                        (* BITREV_IN = v *)
| ReadOUT : socE Z                                   (* ... = BITREV_OUT *)
| ReadSTAT : socE Z                                  (* ... = BITREV_STAT *)
| LoadByte (addr : Z) : socE Z                       (* *p on the ROM *)
| Printf (fmt : string) (args : list Z) : socE unit  (* printf(fmt, args...) *)
| Call (f : string) (args : list Z) : socE unit      (* f(args...); *)
| CallRet (f : string) (args : list Z) : socE Z      (* ... = f(args...) *)
| Asm (text : string) : socE unit.                   (* asm volatile(text) *)

(** One entry of the execution log: an event together with the answer
    the environment gave. *)
Inductive io : Type :=
| IoWriteIN (v : Z)
| IoReadOUT (sample : Z)
| IoReadSTAT (stat : Z)
| IoLoadByte (addr byte : Z)
| IoPrintf (fmt : string) (args : list Z)
| IoCall (f : string) (args : list Z)
| IoCallRet (f : string) (args : list Z) (ret : Z)
| IoAsm (text : string).

Definition io_of {X : Type} (e : socE X) : X -> io :=
  match e in socE X return X -> io with
  | WriteIN v => fun _ => IoWriteIN v
  | ReadOUT => fun x => IoReadOUT x
  | ReadSTAT => fun x => IoReadSTAT x
  | LoadByte a => fun x => IoLoadByte a x
  | Printf fmt args => fun _ => IoPrintf fmt args
  | Call f args => fun _ => IoCall f args
  | CallRet f args => fun x => IoCallRet f args x
  | Asm text => fun _ => IoAsm text
  end.

(** ** Running a program against an environment

    The environment is a deterministic machine of arbitrary state type
    [HW] that answers every event.  [run] executes at most [fuel]
    [Tau]/[Vis] nodes of the tree; it returns the world reached and, when
    the program returned within the budget, the result together with the
    fuel that is left.  A run that is still inside a loop when the fuel
    is gone returns [None]. *)

Definition env (HW : Type) : Type := forall X : Type, socE X -> HW -> X * HW.

Record world (HW : Type) : Type := mk_world { hw : HW; log : list io }.
Arguments mk_world {HW} _ _.
Arguments hw {HW} _.
Arguments log {HW} _.

Definition perform {HW X} (respond : env HW) (e : socE X) (w : world HW)
  : X * world HW :=
  let '(x, s) := respond X e (hw w) in
  (x, mk_world s (log w ++ [io_of e x])).

Fixpoint run {HW R} (respond : env HW) (fuel : nat) (t : itree socE R)
  (w : world HW) : world HW * option (R * nat) :=
  match observe t with
  | RetF r => (w, Some (r, fuel))
  | TauF t' =>
      match fuel with
      | O => (w, None)
      | S fuel' => run respond fuel' t' w
      end
  | VisF e k =>
      match fuel with
      | O => (w, None)
      | S fuel' =>
          let '(x, w') := perform respond e w in
          run respond fuel' (k x) w'
      end
  end.

(** ** Control structures *)

(** [while (cond) body], where evaluating the condition may itself
    touch the hardware.  The loop-carried variables are threaded as [s]. *)
Definition while_ {E : Type -> Type} {St : Type}
  (cond : St -> itree E bool) (body : St -> itree E St) : St -> itree E St :=
  ITree.iter (fun s =>
    b <- cond s ;;
    if b : bool then s' <- body s ;; Ret (inl s') else Ret (inr s)).

(** ** Integer square root

    [static uint32_t isqrt(uint32_t n)].  The function touches no
    hardware; its two loops are the same [while_] as everywhere else. *)

Record isqrt_vars : Type := mk_isqrt_vars { v_n : Z; v_res : Z; v_bit : Z }.

(** The body of [while (bit) { ... }]. *)
Definition isqrt_body (s : isqrt_vars) : isqrt_vars :=
  let '(mk_isqrt_vars n res bit) := s in
  let '(n, res) :=
    if n >=? add32 res bit
    then (sub32 n (add32 res bit), add32 (shr32 res 1) bit)
    else (n, shr32 res 1) in
  mk_isqrt_vars n res (shr32 bit 2).

Definition isqrt {E : Type -> Type} (n : Z) : itree E Z :=
  let res := 0 in
  let bit := shl32 1 30 in
  bit <- while_ (fun bit => Ret (bit >? n)) (fun bit => Ret (shr32 bit 2)) bit ;;
  s <- while_ (fun s => Ret (negb (v_bit s =? 0)))
              (fun s => Ret (isqrt_body s))
              (mk_isqrt_vars n res bit) ;;
  Ret (v_res s).

(** ** Format strings *)

Definition nl : string := String "010" EmptyString.
Definition ellipsis : string :=
  String "226" (String "128" (String "166" EmptyString)).

Definition fmt_start : string := "Bit-reversal self-test" ++ ellipsis ++ nl.
Definition fmt_mismatch : string := "Mismatch @%u: got %u, exp %u" ++ nl.
Definition fmt_passed : string :=
  "Bit-reversal test PASSED for %u-point frame" ++ nl.
Definition fmt_failed : string := "Bit-reversal test FAILED (%u errors)" ++ nl.

(** ** The self-test driver *)

(** [for (uint32_t i = 0; i < N; ++i) BITREV_IN = i;] *)
Definition push_phase : itree socE unit :=
  while_ (fun i => Ret (i <? N))
         (fun i => ITree.trigger (WriteIN i) ;; Ret (add32 i 1))
         0 ;;
  Ret tt.

(** [while ((BITREV_STAT & 1u) == 0) ;] *)
Definition wait_valid : itree socE unit :=
  while_ (fun _ => stat <- ITree.trigger ReadSTAT ;; Ret (Z.land stat 1 =? 0))
         (fun _ => Ret tt)
         tt.

(** The body of the pull loop, for loop variables [i] and [errors]. *)
Definition pull_body (i errors : Z) : itree socE Z :=
  wait_valid ;;
  sample <- ITree.trigger ReadOUT ;;
  let expect := reverse_bits_k i in
  if negb (sample =? expect)
  then ITree.trigger (Printf fmt_mismatch [i; sample; expect]) ;;
       Ret (add32 errors 1)
  else Ret errors.

(** [uint32_t errors = 0; for (uint32_t i = 0; i < N; ++i) { ... }];
    returns the final value of [errors]. *)
Definition pull_phase : itree socE Z :=
  let errors := 0 in
  st <- while_ (fun '(i, _) => Ret (i <? N))
               (fun '(i, errors) =>
                  errors' <- pull_body i errors ;;
                  Ret (add32 i 1, errors'))
               (0, errors) ;;
  Ret (snd st).

(** The pass/fail summary. *)
Definition report (errors : Z) : itree socE unit :=
  if errors =? 0
  then ITree.trigger (Printf fmt_passed [N])
  else ITree.trigger (Printf fmt_failed [errors]).

Definition bitrev_selftest : itree socE unit :=
  ITree.trigger (Printf fmt_start []) ;;
  push_phase ;;
  errors <- pull_phase ;;
  report errors ;;
  ITree.trigger (Call "uart_write_flush" []).

(** ** The demo harness *)

Section Main.

(** [USER_ROM_BASE_ADDR] comes from a header that is not part of the
    sources at hand. *)
Variable USER_ROM_BASE_ADDR : Z.

(** The loop over the ROM string from [USER_ROM_BASE_ADDR] to its zero
    byte, the newline and the flush.  Each dereference of [p] is a
    [LoadByte], which is how the byte reaches the program; the pointer
    is a 32-bit word. *)
Definition read_name : itree socE unit :=
  while_ (fun p => c <- ITree.trigger (LoadByte p) ;; Ret (negb (c =? 0)))
         (fun p => c <- ITree.trigger (LoadByte p) ;;
                   ITree.trigger (Call "putchar" [c]) ;;
                   Ret (add32 p 1))
         USER_ROM_BASE_ADDR ;;
  ITree.trigger (Printf nl []) ;;
  ITree.trigger (Call "uart_write_flush" []).

Definition nops : string := "nop; nop; nop; nop; nop;".

Definition main : itree socE Z :=
  ITree.trigger (Call "uart_init" []) ;;
  ITree.trigger (Printf ("Hello World!" ++ nl) []) ;;
  ITree.trigger (Call "uart_write_flush" []) ;;
  ITree.trigger (Call "gpio_set_direction" [0xFFFF; 0x000F]) ;;
  ITree.trigger (Call "gpio_write" [0x0A]) ;;
  ITree.trigger (Call "gpio_enable" [0xFF]) ;;
  ITree.trigger (Asm nops) ;;
  g <- ITree.trigger (CallRet "gpio_read" []) ;;
  ITree.trigger (Printf ("GPIO (expect 0xA0): 0x%x" ++ nl) [g]) ;;
  ITree.trigger (Call "gpio_toggle" [0x0F]) ;;
  ITree.trigger (Asm nops) ;;
  g <- ITree.trigger (CallRet "gpio_read" []) ;;
  ITree.trigger (Printf ("GPIO (expect 0x50): 0x%x" ++ nl) [g]) ;;
  t0 <- ITree.trigger (CallRet "get_mcycle" []) ;;
  r <- isqrt 1234567890 ;;
  t1 <- ITree.trigger (CallRet "get_mcycle" []) ;;
  ITree.trigger (Printf ("isqrt result: 0x%x, cycles: 0x%x" ++ nl)
                   [r; sub32 t1 t0]) ;;
  ITree.trigger (Printf ("Tick" ++ nl) []) ;;
  ITree.trigger (Call "sleep_ms" [10]) ;;
  ITree.trigger (Printf ("Tock" ++ nl) []) ;;
  ITree.trigger (Call "uart_write_flush" []) ;;
  read_name ;;
  bitrev_selftest ;;
  Ret 0.

End Main.

(** ** A hardware model

    The accelerator as a test bench sees it: [stat_at i p] is what the
    [p]-th read of [STAT] returns while the driver waits for output word
    [i], and [out_at i] is the [i]-th sample popped from [OUT].  The
    remaining fields answer the rest of the SoC. *)

Record hw_model : Type := mk_hw_model {
  stat_at : nat -> nat -> Z;
  out_at : nat -> Z;
  rom_at : Z -> Z;
  ret_of : string -> list Z -> Z }.

(** How many words were popped so far, and how many times [STAT] was
    polled since the last pop. *)
Record hw_state : Type := mk_hw_state { popped : nat; polled : nat }.

Definition model_env (m : hw_model) : env hw_state := fun X e =>
  match e in socE X return hw_state -> X * hw_state with
  | WriteIN _ => fun s => (tt, s)
  | ReadOUT => fun s => (out_at m (popped s), mk_hw_state (S (popped s)) 0)
  | ReadSTAT => fun s =>
      (stat_at m (popped s) (polled s), mk_hw_state (popped s) (S (polled s)))
  | LoadByte a => fun s => (rom_at m a, s)
  | Printf _ _ => fun s => (tt, s)
  | Call _ _ => fun s => (tt, s)
  | CallRet f args => fun s => (ret_of m f args, s)
  | Asm _ => fun s => (tt, s)
  end.

Definition power_on : hw_state := mk_hw_state 0 0.

(** The world at the start of a run: nothing logged yet. *)
Definition boot {HW} (s : HW) : world HW := mk_world s [].

(** What a run returned, if it did, and the world it stopped in. *)
Definition returned {HW R} (o : world HW * option (R * nat)) : option R :=
  option_map fst (snd o).
Definition final {HW R} (o : world HW * option (R * nat)) : world HW := fst o.

(** ** Reading the log *)

(** The values written to [IN], in order. *)
Definition writes (l : list io) : list Z :=
  flat_map (fun e => match e with IoWriteIN v => [v] | _ => [] end) l.

(** The samples read from [OUT], in order. *)
Definition samples (l : list io) : list Z :=
  flat_map (fun e => match e with IoReadOUT v => [v] | _ => [] end) l.

(** The argument lists of all [printf] calls with format [fmt]. *)
Definition printed (fmt : string) (l : list io) : list (list Z) :=
  flat_map (fun e => match e with
                     | IoPrintf f args => if String.eqb f fmt then [args] else []
                     | _ => []
                     end) l.

Definition is_read (e : io) : bool :=
  match e with
  | IoReadOUT _ | IoReadSTAT _ => true
  | _ => false
  end.

Definition is_write (e : io) : bool :=
  match e with
  | IoWriteIN _ => true
  | _ => false
  end.

(** Bit 0 of a [STAT] value: an output word is ready. *)
Definition ready (stat : Z) : bool := negb (Z.land stat 1 =? 0).

Definition is_ready_stat (e : io) : bool :=
  match e with
  | IoReadSTAT stat => ready stat
  | _ => false
  end.

Definition is_out (e : io) : bool :=
  match e with
  | IoReadOUT _ => true
  | _ => false
  end.

(** [[0; 1; ...; n-1]] *)
Definition upto (n : nat) : list Z := map Z.of_nat (seq 0 n).

(** The handshake monitor: [armed] says that the previous event was a
    read of [STAT] with bit 0 set.  [OUT] may be read only when armed,
    and an armed driver does nothing else than read [OUT]. *)
Fixpoint handshake_ok (armed : bool) (l : list io) : bool :=
  match l with
  | [] => true
  | e :: l' =>
      (if is_out e then armed else negb armed) &&
      handshake_ok (is_ready_stat e) l'
  end.

Fixpoint armed_after (armed : bool) (l : list io) : bool :=
  match l with
  | [] => armed
  | e :: l' => armed_after (is_ready_stat e) l'
  end.

(** Index [i] is a mismatch when the sample popped for it differs from
    the reference model. *)
Definition mismatch (out : nat -> Z) (i : nat) : bool :=
  negb (out i =? reverse_bits_k (Z.of_nat i)).

Definition mismatches (out : nat -> Z) (n : nat) : list nat :=
  filter (mismatch out) (seq 0 n).

(** The arguments of the diagnostic printed for a mismatch at [i]. *)
Definition diagnostic (out : nat -> Z) (i : nat) : list Z :=
  [Z.of_nat i; out i; reverse_bits_k (Z.of_nat i)].

(** ** Program logic over [run]

    [hoare respond Safe w t Post]: every run of [t] from [w], whatever
    the fuel, passes only through worlds satisfying [Safe] at the point
    where it stops, and when it returns [r] in [w'] then [Post r w'].

    [converges respond w t Post]: with enough fuel, [t] run from [w]
    returns some [r] in a world [w'] with [Post r w']. *)

Definition hoare {HW R} (respond : env HW) (Safe : world HW -> Prop)
  (w : world HW) (t : itree socE R) (Post : R -> world HW -> Prop) : Prop :=
  forall fuel,
    Safe (fst (run respond fuel t w)) /\
    match snd (run respond fuel t w) with
    | Some (r, _) => Post r (fst (run respond fuel t w))
    | None => True
    end.

Definition converges {HW R} (respond : env HW)
  (w : world HW) (t : itree socE R) (Post : R -> world HW -> Prop) : Prop :=
  exists fuel,
    match run respond fuel t w with
    | (w', Some (r, _)) => Post r w'
    | (_, None) => False
    end.

(** ** Bit-level view of the reference model *)

(** One mask-shift-merge pass of [reverse_bits_k]. *)
Definition swap_stage (m1 m2 k x : Z) : Z :=
  Z.lor (shl32 (Z.land x m1) k) (shr32 (Z.land x m2) k).

(** The first four passes. *)
Definition rev_pass4 (x : Z) : Z :=
  swap_stage 0x00FF00FF 0xFF00FF00 8
    (swap_stage 0x0F0F0F0F 0xF0F0F0F0 4
       (swap_stage 0x33333333 0xCCCCCCCC 2
          (swap_stage 0x55555555 0xAAAAAAAA 1 x))).

Definition bit (x j : Z) : bool := Z.testbit x j.
Arguments bit : simpl never.

(** Whether bit [j] of a pass takes the bit [k] places below, or above. *)
Definition from_below (m1 k j : Z) : bool := (j <? 32) && Z.testbit m1 (j - k).
Definition from_above (m2 k j : Z) : bool := Z.testbit m2 (j + k).


(** ** Vocabulary of the statements *)

(** The frame size as a count of words. *)
Definition frame : nat := Z.to_nat N.

(** All writes to [IN] form an initial segment of [0, 1, ...], and a
    read of [OUT] or [STAT] comes only after the whole frame is pushed. *)
Definition push_then_pull (l : list io) : Prop :=
  (exists n, (n <= frame)%nat /\ writes l = upto n) /\
  (forall l1 e l2, l = l1 ++ e :: l2 -> is_read e = true ->
     writes l1 = upto frame).

Definition no_reads (l : list io) : Prop :=
  forall e, In e l -> is_read e = false.

(** The driver has popped [n] words and is, or is not, [armed]. *)
Definition handshake_state (armed : bool) (n : nat) (l : list io) : Prop :=
  armed_after false l = armed /\
  List.length (filter is_out l) = n /\
  List.length (filter is_ready_stat l) = if armed then S n else n.

Definition is_printf (e : io) : bool :=
  match e with
  | IoPrintf _ _ => true
  | _ => false
  end.

(** The two safety properties, as predicates on worlds, and the
    intermediate assertions of their proofs. *)
Definition in_order {HW} (w : world HW) : Prop := push_then_pull (log w).
Definition pulling {HW} (w : world HW) : Prop :=
  writes (log w) = upto frame.
Definition in_step {HW} (w : world HW) : Prop :=
  handshake_ok false (log w) = true.
Definition idle {HW} (n : nat) (w : world HW) : Prop :=
  handshake_state false n (log w).

(** No constraint on the worlds passed through. *)
Definition anywhere {HW} (w : world HW) : Prop := True.

(** The hardware has handed out [n] words and was polled [p] times
    since. *)
Definition at_word (n p : nat) (w : world hw_state) : Prop :=
  popped (hw w) = n /\ polled (hw w) = p.

(** The hardware has handed out at most [j] words. *)
Definition not_past (j : nat) (w : world hw_state) : Prop :=
  (popped (hw w) <= j)%nat.

(** Fuel that is enough for a whole self-test on a bench that is ready
    at once. *)
Definition plenty : nat := Z.to_nat 6000.

(** The number of mismatches among the first [n] words of the model. *)
Definition tally (m : hw_model) (n : nat) : Z :=
  Z.of_nat (List.length (mismatches (out_at m) n)).

(** What the log and the hardware look like when [n] words were popped
    and checked, and no verdict was printed yet. *)
Definition pull_state (m : hw_model) (n : nat) (w : world hw_state) : Prop :=
  popped (hw w) = n /\
  samples (log w) = map (out_at m) (seq 0 n) /\
  printed fmt_mismatch (log w) =
    map (diagnostic (out_at m)) (mismatches (out_at m) n) /\
  printed fmt_passed (log w) = [] /\
  printed fmt_failed (log w) = [].

(** The same between the pop of word [n] and its comparison. *)
Definition popped_state (m : hw_model) (n : nat) (w : world hw_state) : Prop :=
  popped (hw w) = S n /\
  samples (log w) = map (out_at m) (seq 0 (S n)) /\
  printed fmt_mismatch (log w) =
    map (diagnostic (out_at m)) (mismatches (out_at m) n) /\
  printed fmt_passed (log w) = [] /\
  printed fmt_failed (log w) = [].

(** The same once the verdict is out. *)
Definition verdict_state (m : hw_model) (w : world hw_state) : Prop :=
  popped (hw w) = frame /\
  samples (log w) = map (out_at m) (seq 0 frame) /\
  printed fmt_mismatch (log w) =
    map (diagnostic (out_at m)) (mismatches (out_at m) frame) /\
  printed fmt_passed (log w) = (if tally m frame =? 0 then [[N]] else []) /\
  printed fmt_failed (log w) =
    (if tally m frame =? 0 then [] else [[tally m frame]]).

(** ** Loop invariants of [isqrt] *)

(** [bit] is a power of four with [n < 4 * bit], or it is 0 and so is
    [n]. *)
Definition align_inv (n b : Z) : Prop :=
  (b = 0 /\ n = 0) \/ (exists k, 0 <= k <= 15 /\ b = 4 ^ k /\ n < 4 * b).

(** [R] is the root found so far: [res] holds it scaled by the current
    digit, [n] holds the remainder. *)
Definition root_inv (n : Z) (s : isqrt_vars) : Prop :=
  exists R, 0 <= R /\ R * R <= n /\ v_n s = n - R * R /\
    ((v_bit s = 0 /\ v_res s = R /\ n < (R + 1) * (R + 1)) \/
     (exists k b, 0 <= k /\ b = 2 ^ k /\ v_bit s = b * b /\
        v_res s = 2 * R * b /\ n < (R + 2 * b) * (R + 2 * b) /\
        R + 2 * b <= 65536)).

(** ** Test benches *)

(** Always ready, always right. *)
Definition ideal_hw : hw_model :=
  mk_hw_model (fun _ _ => 1) (fun i => reverse_bits_k (Z.of_nat i))
    (fun _ => 0) (fun _ _ => 0).

(** Always ready, wrong at word [j] only, where it returns [bad]. *)
Definition faulty_hw (j : nat) (bad : Z) : hw_model :=
  mk_hw_model (fun _ _ => 1)
    (fun i => if (i =? j)%nat then bad else reverse_bits_k (Z.of_nat i))
    (fun _ => 0) (fun _ _ => 0).

(** Ready on the third poll for every word but [j], for which bit 0 of
    [STAT] never comes up. *)
Definition stuck_hw (j : nat) : hw_model :=
  mk_hw_model
    (fun i p => if (i =? j)%nat then 2 else if (p <? 2)%nat then 0 else 3)
    (fun i => reverse_bits_k (Z.of_nat i)) (fun _ => 0) (fun _ _ => 0).

(** ** Vocabulary of the further properties *)

(** [finishes_within respond k w t Post]: [t] run from [w] returns after
    at most [k] steps, that is with some fuel [c <= k] of which nothing
    is left, in a world and with a result satisfying [Post]. *)
Definition finishes_within {HW R} (respond : env HW) (k : nat)
  (w : world HW) (t : itree socE R) (Post : R -> world HW -> Prop) : Prop :=
  exists c, (c <= k)%nat /\
    match run respond c t w with
    | (w', Some (r, rest)) => rest = 0%nat /\ Post r w'
    | (_, None) => False
    end.

(** How many times a positive [bit] can be shifted right by two before
    it is 0: the number of turns [while (bit) { ...; bit >>= 2; }] has
    left. *)
Definition quarter_steps (b : Z) : nat :=
  if b <=? 0 then 0%nat else S (Z.to_nat (Z.log2 b / 2)).

(** The [i]-th sample a log shows as read from [OUT] (0 when there is
    none): the hardware output model a run has actually met. *)
Definition sample_at (l : list io) (i : nat) : Z := nth i (samples l) 0.

(** In any environment: [n] samples were popped and compared, the
    diagnostics printed are those of the mismatches among them, and no
    verdict was printed yet. *)
Definition checked {HW} (n : nat) (w : world HW) : Prop :=
  List.length (samples (log w)) = n /\
  printed fmt_mismatch (log w) =
    map (diagnostic (sample_at (log w))) (mismatches (sample_at (log w)) n) /\
  printed fmt_passed (log w) = [] /\
  printed fmt_failed (log w) = [].

(** The same between the pop of sample [n] and its comparison. *)
Definition fetched {HW} (n : nat) (w : world HW) : Prop :=
  List.length (samples (log w)) = S n /\
  printed fmt_mismatch (log w) =
    map (diagnostic (sample_at (log w))) (mismatches (sample_at (log w)) n) /\
  printed fmt_passed (log w) = [] /\
  printed fmt_failed (log w) = [].

(** The number of diagnostics in a log. *)
Definition complaints (l : list io) : Z :=
  Z.of_nat (List.length (printed fmt_mismatch l)).

(** The same once the verdict is out. *)
Definition judged {HW} (w : world HW) : Prop :=
  List.length (samples (log w)) = frame /\
  printed fmt_mismatch (log w) =
    map (diagnostic (sample_at (log w)))
      (mismatches (sample_at (log w)) frame) /\
  printed fmt_passed (log w) =
    (if complaints (log w) =? 0 then [[N]] else []) /\
  printed fmt_failed (log w) =
    (if complaints (log w) =? 0 then [] else [[complaints (log w)]]).

(** ** Vocabulary for [read_name] and [main] *)

(** The address [read_name] looks at after [i] increments of [p]. *)
Definition name_addr (base : Z) (i : nat) : Z := u32 (base + Z.of_nat i).

(** What the model of [read_name] logs for the character at [a]: the
    loop test loads it, the argument of [putchar] loads it again. *)
Definition name_echo (rom : Z -> Z) (a : Z) : list io :=
  [IoLoadByte a (rom a); IoLoadByte a (rom a); IoCall "putchar" [rom a]].

(** The whole log of the model on a string of [n] characters. *)
Definition name_log (rom : Z -> Z) (base : Z) (n : nat) : list io :=
  flat_map (fun i => name_echo rom (name_addr base i)) (seq 0 n) ++
  [IoLoadByte (name_addr base n) 0; IoPrintf nl [];
   IoCall "uart_write_flush" []].

(** A byte coming in from the ROM.  The ROM is not volatile: a load is
    how a byte reaches the program, not something the program is seen
    to do. *)
Definition is_load (e : io) : bool :=
  match e with
  | IoLoadByte _ _ => true
  | _ => false
  end.

(** What a log shows of the program from outside: everything but the
    loads. *)
Definition visible (l : list io) : list io :=
  filter (fun e => negb (is_load e)) l.

(** The self-test has not started: its banner was not printed and
    nothing was written to [IN]. *)
Definition not_started {HW} (w : world HW) : Prop :=
  printed fmt_start (log w) = [] /\ writes (log w) = [].

(** The formats [main] reports its measurements with. *)
Definition fmt_gpio_a0 : string := "GPIO (expect 0xA0): 0x%x" ++ nl.
Definition fmt_gpio_50 : string := "GPIO (expect 0x50): 0x%x" ++ nl.
Definition fmt_isqrt : string := "isqrt result: 0x%x, cycles: 0x%x" ++ nl.

(** A value coming back from a peripheral, or one of the three lines
    that report such values. *)
Definition is_measurement (e : io) : bool :=
  match e with
  | IoCallRet _ _ _ => true
  | IoPrintf f _ =>
      String.eqb f fmt_gpio_a0 || String.eqb f fmt_gpio_50 ||
      String.eqb f fmt_isqrt
  | _ => false
  end.

(** The measurements in the log are [l]. *)
Definition measured {HW} (l : list io) (w : world HW) : Prop :=
  filter is_measurement (log w) = l.

(** A bench with [name] in ROM at [base] and zeroes elsewhere, and an
    accelerator that is always ready and always right. *)
Definition named_hw (base : Z) (name : list Z) : hw_model :=
  mk_hw_model (fun _ _ => 1) (fun i => reverse_bits_k (Z.of_nat i))
    (fun a => if base <=? a then nth (Z.to_nat (a - base)) name 0 else 0)
    (fun _ _ => 0).

(** A bench whose ROM has no zero byte. *)
Definition endless_hw : hw_model :=
  mk_hw_model (fun _ _ => 1) (fun i => reverse_bits_k (Z.of_nat i))
    (fun _ => 65) (fun _ _ => 0).

(** Fuel that is enough for [main] on a bench that is ready at once and
    has a short name in ROM. *)
Definition ample : nat := Z.to_nat 9000.
(** * Properties *)

(** ** Equations of [run] *)

Section RunFacts.

Context {HW : Type} (respond : env HW).

Lemma run_unfold {R} fuel (t : itree socE R) (w : world HW) :
  run respond fuel t w =
  match observe t with
  | RetF r => (w, Some (r, fuel))
  | TauF t' =>
      match fuel with
      | O => (w, None)
      | S fuel' => run respond fuel' t' w
      end
  | VisF e k =>
      match fuel with
      | O => (w, None)
      | S fuel' =>
          let '(x, w') := perform respond e w in
          run respond fuel' (k x) w'
      end
  end.
Proof. destruct fuel; reflexivity. Qed.

Lemma run_observe {R} fuel (t1 t2 : itree socE R) (w : world HW) :
  observe t1 = observe t2 -> run respond fuel t1 w = run respond fuel t2 w.
Proof. intros H. rewrite !run_unfold, H. reflexivity. Qed.

Lemma run_ret {R} fuel (r : R) w :
  run respond fuel (Ret r) w = (w, Some (r, fuel)).
Proof. destruct fuel; reflexivity. Qed.

Lemma run_trigger {X} fuel (e : socE X) w :
  run respond (S fuel) (ITree.trigger e) w =
  let '(x, w') := perform respond e w in (w', Some (x, fuel)).
Proof.
  cbn. destruct (perform respond e w) as [x w']. apply run_ret.
Qed.

Lemma run_trigger_0 {X} (e : socE X) w :
  run respond 0 (ITree.trigger e) w = (w, None).
Proof. reflexivity. Qed.

Lemma run_bind {R T} fuel (t : itree socE R) (k : R -> itree socE T) w :
  run respond fuel (ITree.bind t k) w =
  match run respond fuel t w with
  | (w', Some (r, fuel')) => run respond fuel' (k r) w'
  | (w', None) => (w', None)
  end.
Proof.
  revert t w. induction fuel as [|fuel IH]; intros t w;
    rewrite (run_unfold _ (ITree.bind t k)), (run_unfold _ t), observe_bind;
    destruct (observe t) as [r|t'|X e ke]; cbn; try reflexivity.
  - apply IH.
  - destruct (perform respond e w) as [x w']. apply IH.
Qed.

Lemma run_iter {I R} fuel (body : I -> itree socE (I + R)) (i : I) w :
  run respond fuel (ITree.iter body i) w =
  match run respond fuel (body i) w with
  | (w', Some (inl i', fuel')) =>
      match fuel' with
      | O => (w', None)
      | S fuel'' => run respond fuel'' (ITree.iter body i') w'
      end
  | (w', Some (inr r, fuel')) => (w', Some (r, fuel'))
  | (w', None) => (w', None)
  end.
Proof.
  rewrite (run_observe fuel (ITree.iter body i)
             (ITree.bind (body i)
                (fun lr => match lr with
                           | inl l => Tau (ITree.iter body l)
                           | inr r => Ret r
                           end))) by reflexivity.
  rewrite run_bind.
  destruct (run respond fuel (body i) w) as [w' [[[i'|r] fuel']|]];
    try reflexivity; destruct fuel'; reflexivity.
Qed.

(** One turn of a [while_] loop: the condition, then the body, then
    one unit of fuel to go round. *)
Lemma run_while {St} fuel (cond : St -> itree socE bool)
  (body : St -> itree socE St) (s : St) w :
  run respond fuel (while_ cond body s) w =
  match run respond fuel (cond s) w with
  | (w1, Some (true, fuel1)) =>
      match run respond fuel1 (body s) w1 with
      | (w2, Some (s', S fuel2)) => run respond fuel2 (while_ cond body s') w2
      | (w2, _) => (w2, None)
      end
  | (w1, Some (false, fuel1)) => (w1, Some (s, fuel1))
  | (w1, None) => (w1, None)
  end.
Proof.
  unfold while_ at 1. rewrite run_iter, run_bind.
  destruct (run respond fuel (cond s) w) as [w1 [[[|] fuel1]|]];
    [|rewrite run_ret|]; try reflexivity.
  rewrite run_bind.
  destruct (run respond fuel1 (body s) w1) as [w2 [[s' fuel2]|]];
    [|reflexivity].
  rewrite run_ret. destruct fuel2; reflexivity.
Qed.

(** The fuel left over never exceeds the fuel given. *)
Lemma run_fuel_le {R} fuel (t : itree socE R) w w' r fuel' :
  run respond fuel t w = (w', Some (r, fuel')) -> (fuel' <= fuel)%nat.
Proof.
  revert t w. induction fuel as [|fuel IH]; intros t w;
    rewrite run_unfold; destruct (observe t) as [r0|t'|X e ke];
    try discriminate.
  - intros H; inversion H; lia.
  - intros H; inversion H; lia.
  - intros H. apply IH in H. lia.
  - destruct (perform respond e w) as [x w1]. intros H. apply IH in H. lia.
Qed.

(** A run that returned returns the same with more fuel. *)
Lemma run_more_fuel {R} d fuel (t : itree socE R) w w' r fuel' :
  run respond fuel t w = (w', Some (r, fuel')) ->
  run respond (fuel + d) t w = (w', Some (r, (fuel' + d)%nat)).
Proof.
  revert t w. induction fuel as [|fuel IH]; intros t w;
    rewrite !run_unfold; destruct (observe t) as [r0|t'|X e ke];
    try discriminate; cbn.
  - intros H; inversion H; subst; reflexivity.
  - intros H; inversion H; subst; reflexivity.
  - apply IH.
  - destruct (perform respond e w) as [x w1]. apply IH.
Qed.

Lemma perform_eq {X} (e : socE X) (w : world HW) :
  perform respond e w =
  (fst (respond X e (hw w)),
   mk_world (snd (respond X e (hw w)))
     (log w ++ [io_of e (fst (respond X e (hw w)))])).
Proof. unfold perform. destruct (respond X e (hw w)); reflexivity. Qed.

End RunFacts.

(** ** Rules of the program logic *)

Section Logic.

Context {HW : Type} (respond : env HW).
Variable Safe : world HW -> Prop.

Lemma hoare_ret {R} w (r : R) (Post : R -> world HW -> Prop) :
  Safe w -> Post r w -> hoare respond Safe w (Ret r) Post.
Proof. intros Hs Hp fuel. rewrite run_ret. cbn. auto. Qed.

Lemma hoare_trigger {X} w (e : socE X) (Post : X -> world HW -> Prop) :
  Safe w ->
  (forall x s, respond X e (hw w) = (x, s) ->
     Safe (mk_world s (log w ++ [io_of e x])) /\
     Post x (mk_world s (log w ++ [io_of e x]))) ->
  hoare respond Safe w (ITree.trigger e) Post.
Proof.
  intros Hs Hp [|fuel].
  - rewrite run_trigger_0. cbn. auto.
  - rewrite run_trigger. unfold perform.
    destruct (respond X e (hw w)) as [x s] eqn:E.
    apply (Hp x s eq_refl).
Qed.

Lemma hoare_bind {R T} w (t : itree socE R) (k : R -> itree socE T)
  (Mid : R -> world HW -> Prop) (Post : T -> world HW -> Prop) :
  hoare respond Safe w t Mid ->
  (forall r w', Safe w' -> Mid r w' -> hoare respond Safe w' (k r) Post) ->
  hoare respond Safe w (ITree.bind t k) Post.
Proof.
  intros Ht Hk fuel. rewrite run_bind.
  specialize (Ht fuel).
  destruct (run respond fuel t w) as [w' [[r fuel']|]]; cbn in *.
  - destruct Ht as [Hs Hm]. apply (Hk r w' Hs Hm fuel').
  - tauto.
Qed.

Lemma hoare_conseq {R} w (t : itree socE R) (P Q : R -> world HW -> Prop) :
  hoare respond Safe w t P ->
  (forall r w', Safe w' -> P r w' -> Q r w') ->
  hoare respond Safe w t Q.
Proof.
  intros H HPQ fuel. specialize (H fuel).
  destruct (run respond fuel t w) as [w' [[r fuel']|]]; cbn in *; intuition.
Qed.

(** Partial correctness of a loop: an invariant [Inv] of the
    loop-carried state and the world. *)
Lemma hoare_while {St} (Inv : St -> world HW -> Prop)
  (cond : St -> itree socE bool) (body : St -> itree socE St)
  (Post : St -> world HW -> Prop) :
  (forall s w, Safe w -> Inv s w ->
     hoare respond Safe w (cond s)
       (fun b w' =>
          if b : bool
          then hoare respond Safe w' (body s) Inv
          else Post s w')) ->
  forall s w, Safe w -> Inv s w ->
    hoare respond Safe w (while_ cond body s) Post.
Proof.
  intros Hstep s w Hsafe Hinv fuel. revert s w Hsafe Hinv.
  induction fuel as [fuel IH] using lt_wf_ind. intros s w Hsafe Hinv.
  rewrite run_while.
  pose proof (Hstep s w Hsafe Hinv fuel) as Hc.
  destruct (run respond fuel (cond s) w) as [w1 [[[|] fuel1]|]] eqn:E1;
    cbn in Hc; [|exact Hc|exact Hc].
  destruct Hc as [Hs1 Hb]. specialize (Hb fuel1).
  destruct (run respond fuel1 (body s) w1) as [w2 [[s' fuel2]|]] eqn:E2;
    cbn in Hb; [|cbn; tauto].
  destruct fuel2 as [|fuel2]; [cbn; tauto|].
  apply run_fuel_le in E1. apply run_fuel_le in E2.
  apply IH; [lia | tauto | tauto].
Qed.

(** Total correctness. *)

Lemma converges_ret {R} w (r : R) (Post : R -> world HW -> Prop) :
  Post r w -> converges respond w (Ret r) Post.
Proof. intros H. exists 0%nat. rewrite run_ret. assumption. Qed.

Lemma converges_trigger {X} w (e : socE X) (Post : X -> world HW -> Prop) :
  (forall x s, respond X e (hw w) = (x, s) ->
     Post x (mk_world s (log w ++ [io_of e x]))) ->
  converges respond w (ITree.trigger e) Post.
Proof.
  intros H. exists 1%nat. rewrite run_trigger. unfold perform.
  destruct (respond X e (hw w)) as [x s] eqn:E. apply (H x s eq_refl).
Qed.

Lemma converges_bind {R T} w (t : itree socE R) (k : R -> itree socE T)
  (Mid : R -> world HW -> Prop) (Post : T -> world HW -> Prop) :
  converges respond w t Mid ->
  (forall r w', Mid r w' -> converges respond w' (k r) Post) ->
  converges respond w (ITree.bind t k) Post.
Proof.
  intros [f1 H1] Hk.
  destruct (run respond f1 t w) as [w1 [[r f1']|]] eqn:E1; [|contradiction].
  destruct (Hk r w1 H1) as [f2 H2].
  destruct (run respond f2 (k r) w1) as [w2 [[r2 f2']|]] eqn:E2;
    [|contradiction].
  exists (f1 + f2)%nat. rewrite run_bind.
  rewrite (run_more_fuel respond f2 _ _ _ _ _ _ E1).
  replace (f1' + f2)%nat with (f2 + f1')%nat by lia.
  rewrite (run_more_fuel respond f1' _ _ _ _ _ _ E2). assumption.
Qed.

Lemma converges_conseq {R} w (t : itree socE R)
  (P Q : R -> world HW -> Prop) :
  converges respond w t P ->
  (forall r w', P r w' -> Q r w') ->
  converges respond w t Q.
Proof.
  intros [f H] HPQ. exists f.
  destruct (run respond f t w) as [w' [[r f']|]]; auto.
Qed.

(** Termination of a loop: an invariant and a variant that every turn
    decreases. *)
Lemma converges_while {St} (Inv : St -> world HW -> Prop)
  (variant : St -> world HW -> nat)
  (cond : St -> itree socE bool) (body : St -> itree socE St)
  (Post : St -> world HW -> Prop) :
  (forall s w, Inv s w ->
     converges respond w (cond s)
       (fun b w' =>
          if b : bool
          then converges respond w' (body s)
                 (fun s' w'' =>
                    Inv s' w'' /\ (variant s' w'' < variant s w)%nat)
          else Post s w')) ->
  forall s w, Inv s w -> converges respond w (while_ cond body s) Post.
Proof.
  intros Hstep s w. remember (variant s w) as n eqn:Hn. revert s w Hn.
  induction n as [n IH] using lt_wf_ind. intros s w Hn Hinv.
  destruct (Hstep s w Hinv) as [f1 H1].
  destruct (run respond f1 (cond s) w) as [w1 [[[|] f1']|]] eqn:E1;
    [| |contradiction].
  - destruct H1 as [f2 H2].
    destruct (run respond f2 (body s) w1) as [w2 [[s' f2']|]] eqn:E2;
      [|contradiction].
    destruct H2 as [Hi Hlt].
    destruct (IH (variant s' w2) ltac:(lia) s' w2 eq_refl Hi) as [f3 H3].
    exists (f1 + (f2 + S f3))%nat. rewrite run_while.
    rewrite (run_more_fuel respond _ _ _ _ _ _ _ E1).
    replace (f1' + (f2 + S f3))%nat with (f2 + (S f3 + f1'))%nat by lia.
    rewrite (run_more_fuel respond _ _ _ _ _ _ _ E2).
    replace (f2' + (S f3 + f1'))%nat with (S (f3 + (f2' + f1')))%nat by lia.
    destruct (run respond f3 (while_ cond body s') w2)
      as [w3 [[r3 f3']|]] eqn:E3; [|contradiction].
    rewrite (run_more_fuel respond _ _ _ _ _ _ _ E3). assumption.
  - exists f1. rewrite run_while, E1. assumption.
Qed.

(** A loop without side effects. *)
Lemma converges_while_pure {St} (Inv : St -> Prop) (variant : St -> nat)
  (c : St -> bool) (f : St -> St) :
  (forall s, Inv s -> c s = true ->
     Inv (f s) /\ (variant (f s) < variant s)%nat) ->
  forall s w, Inv s ->
    converges respond w
      (while_ (fun s => Ret (c s)) (fun s => Ret (f s)) s)
      (fun s' w' => Inv s' /\ c s' = false /\ w' = w).
Proof.
  intros Hstep s w Hinv.
  apply (converges_while (fun s w' => Inv s /\ w' = w)
           (fun s _ => variant s)); [|auto].
  intros s0 w0 [Hi ->]. apply converges_ret.
  destruct (c s0) eqn:Hc; [|auto].
  apply converges_ret. destruct (Hstep s0 Hi Hc). auto.
Qed.

End Logic.

(** ** The reference model reverses the low K bits *)

Lemma u32_small x : 0 <= x < 2 ^ 32 -> u32 x = x.
Proof. intros H. unfold u32. apply Z.mod_small. assumption. Qed.

Lemma K_value : K = 10.
Proof. reflexivity. Qed.

Lemma N_value : N = 1024.
Proof. reflexivity. Qed.

Lemma bit_u32 x j : 0 <= j -> bit (u32 x) j = (j <? 32) && bit x j.
Proof. intros Hj. unfold bit, u32. apply Z.testbit_mod_pow2. lia. Qed.

Lemma bit_swap_stage m1 m2 k x j :
  0 <= j ->
  bit (swap_stage m1 m2 k x) j =
  (from_below m1 k j && bit x (j - k)) || (from_above m2 k j && bit x (j + k)).
Proof.
  intros Hj. unfold swap_stage, shl32, shr32, from_below, from_above.
  unfold bit at 1. rewrite Z.lor_spec.
  fold (bit (u32 (Z.shiftl (Z.land x m1) k)) j). rewrite bit_u32 by assumption.
  unfold bit.
  rewrite Z.shiftl_spec, Z.shiftr_spec, !Z.land_spec by assumption.
  destruct (j <? 32), (Z.testbit x (j - k)), (Z.testbit m1 (j - k)),
    (Z.testbit x (j + k)), (Z.testbit m2 (j + k)); reflexivity.
Qed.

Lemma testbit_above x j : 0 <= x < 2 ^ 32 -> 32 <= j -> Z.testbit x j = false.
Proof.
  intros Hx Hj. destruct (Z.eq_dec x 0) as [->|Hnz].
  - apply Z.testbit_0_l.
  - apply Z.bits_above_log2; [lia|].
    assert (Z.log2 x < 32) by (apply Z.log2_lt_pow2; lia). lia.
Qed.

Lemma bit_swap_stage_high m1 m2 k x j :
  0 <= k -> 0 <= m2 < 2 ^ 32 -> 32 <= j -> bit (swap_stage m1 m2 k x) j = false.
Proof.
  intros Hk Hm Hj. rewrite bit_swap_stage by lia.
  unfold from_below, from_above.
  rewrite (testbit_above m2 (j + k)) by lia.
  destruct (Z.ltb_spec j 32); [lia|]. reflexivity.
Qed.

Lemma reverse_bits_k_passes x :
  reverse_bits_k x =
  shr32 (Z.lor (shl32 (rev_pass4 x) 16) (shr32 (rev_pass4 x) 16)) 22.
Proof. reflexivity. Qed.

(** Case analysis on an index known to be below 32. *)
Ltac small_index j :=
  destruct j as [|j|j]; [| |lia];
  [|do 5 (try (destruct j as [j|j|]; try lia))].

(** After four passes the bits of every half-word are reversed. *)
Lemma bit_rev_pass4 x j :
  0 <= j < 32 -> bit (rev_pass4 x) j = bit x (Z.lxor j 15).
Proof.
  intros Hj. unfold rev_pass4.
  small_index j;
    repeat (rewrite bit_swap_stage by lia; cbn; rewrite ?orb_false_r);
    reflexivity.
Qed.

Lemma bit_rev_pass4_high x j : 32 <= j -> bit (rev_pass4 x) j = false.
Proof. intros Hj. apply bit_swap_stage_high; lia. Qed.

(** The bits of the result, for every input whatsoever. *)
Lemma reverse_bits_k_bit x j :
  0 <= j -> bit (reverse_bits_k x) j = (j <? 10) && bit x (9 - j).
Proof.
  intros Hj. rewrite reverse_bits_k_passes. unfold shr32 at 1.
  unfold bit at 1. rewrite Z.shiftr_spec by assumption.
  rewrite Z.lor_spec. unfold shl32, shr32.
  fold (bit (u32 (Z.shiftl (rev_pass4 x) 16)) (j + 22)).
  rewrite bit_u32 by lia. unfold bit at 1.
  rewrite Z.shiftl_spec, Z.shiftr_spec by lia.
  fold (bit (rev_pass4 x) (j + 22 - 16)).
  fold (bit (rev_pass4 x) (j + 22 + 16)).
  rewrite (bit_rev_pass4_high x (j + 22 + 16)) by lia. rewrite orb_false_r.
  destruct (Z.ltb_spec j 10) as [Hlt|Hge].
  - replace (j + 22 <? 32) with true by (symmetry; apply Z.ltb_lt; lia).
    rewrite bit_rev_pass4 by lia. cbn [andb]. f_equal.
    small_index j; reflexivity.
  - replace (j + 22 <? 32) with false by (symmetry; apply Z.ltb_ge; lia).
    reflexivity.
Qed.

Lemma reverse_bits_k_nonneg x : 0 <= reverse_bits_k x.
Proof.
  rewrite reverse_bits_k_passes. unfold shr32 at 1.
  apply Z.shiftr_nonneg, Z.lor_nonneg. split.
  - unfold shl32, u32. apply Z.mod_pos_bound. lia.
  - unfold shr32, rev_pass4, swap_stage at 1.
    apply Z.shiftr_nonneg, Z.lor_nonneg. split.
    + unfold shl32, u32. apply Z.mod_pos_bound. lia.
    + unfold shr32. apply Z.shiftr_nonneg, Z.land_nonneg. right. lia.
Qed.

Lemma low_bits_bound r : 0 <= r ->
  (forall j, 10 <= j -> Z.testbit r j = false) -> r < 2 ^ 10.
Proof.
  intros Hr Hhigh.
  assert (E : r mod 2 ^ 10 = r).
  { apply Z.bits_inj'. intros j Hj. rewrite Z.testbit_mod_pow2 by lia.
    destruct (Z.ltb_spec j 10); [reflexivity|].
    rewrite Hhigh by lia. reflexivity. }
  rewrite <- E. apply Z.mod_pos_bound. lia.
Qed.

Lemma reverse_bits_k_range x : 0 <= reverse_bits_k x < 2 ^ K.
Proof.
  split; [apply reverse_bits_k_nonneg|].
  apply low_bits_bound; [apply reverse_bits_k_nonneg|].
  intros j Hj. fold (bit (reverse_bits_k x) j).
  rewrite reverse_bits_k_bit by lia.
  destruct (Z.ltb_spec j 10); [lia|reflexivity].
Qed.

(** ** C2 *)

(** C2: for every [x] in [[0, 2^K)] with [K = 10], bit [j] of
    [reverse_bits_k x] is bit [K-1-j] of [x] for every [j] in [[0, K)],
    every bit at position [K] or above is zero, so that the result is
    again a [K]-bit value; and [reverse_bits_k 1 = 512],
    [reverse_bits_k 3 = 768]. *)
Theorem reverse_bits_k_reverses (x : Z) :
  0 <= x < 2 ^ K ->
  (forall j, 0 <= j < K ->
     Z.testbit (reverse_bits_k x) j = Z.testbit x (K - 1 - j)) /\
  (forall j, K <= j -> Z.testbit (reverse_bits_k x) j = false) /\
  0 <= reverse_bits_k x < 2 ^ K /\
  K = 10 /\ reverse_bits_k 1 = 512 /\ reverse_bits_k 3 = 768.
Proof.
  intros _. rewrite K_value. repeat split.
  - intros j Hj. fold (bit (reverse_bits_k x) j).
    rewrite reverse_bits_k_bit by lia.
    replace (j <? 10) with true by (symmetry; apply Z.ltb_lt; lia).
    reflexivity.
  - intros j Hj. fold (bit (reverse_bits_k x) j).
    rewrite reverse_bits_k_bit by lia.
    replace (j <? 10) with false by (symmetry; apply Z.ltb_ge; lia).
    reflexivity.
  - apply reverse_bits_k_nonneg.
  - apply (reverse_bits_k_range x).
Qed.

Lemma reverse_bits_k_reverses_witness :
  (forall j, 0 <= j < K ->
     Z.testbit (reverse_bits_k 5) j = Z.testbit 5 (K - 1 - j)) /\
  (forall j, K <= j -> Z.testbit (reverse_bits_k 5) j = false) /\
  0 <= reverse_bits_k 5 < 2 ^ K /\
  K = 10 /\ reverse_bits_k 1 = 512 /\ reverse_bits_k 3 = 768.
Proof. apply (reverse_bits_k_reverses 5). unfold K. lia. Defined.

(** ** C7 *)

Lemma reverse_bits_k_involutive x :
  0 <= x < 2 ^ K -> reverse_bits_k (reverse_bits_k x) = x.
Proof.
  intros Hx. apply Z.bits_inj'. intros j Hj.
  fold (bit (reverse_bits_k (reverse_bits_k x)) j).
  rewrite reverse_bits_k_bit by assumption.
  destruct (Z.ltb_spec j 10) as [Hlt|Hge]; cbn [andb].
  - rewrite reverse_bits_k_bit by lia.
    replace (9 - j <? 10) with true by (symmetry; apply Z.ltb_lt; lia).
    cbn [andb]. unfold bit. f_equal. lia.
  - symmetry. destruct (Z.eq_dec x 0) as [->|Hnz]; [apply Z.testbit_0_l|].
    apply Z.bits_above_log2; [lia|].
    assert (Z.log2 x < 10) by (apply Z.log2_lt_pow2; [lia|apply Hx]). lia.
Qed.

(** C7: on [[0, 2^K)] the reference model is an involution, hence a
    bijection of that range onto itself: it maps the range into itself,
    it is injective there, and every value of the range is reached. *)
Theorem reverse_bits_k_involution (x : Z) :
  0 <= x < 2 ^ K ->
  reverse_bits_k (reverse_bits_k x) = x /\
  0 <= reverse_bits_k x < 2 ^ K /\
  (forall y, 0 <= y < 2 ^ K -> reverse_bits_k x = reverse_bits_k y -> x = y) /\
  (exists y, 0 <= y < 2 ^ K /\ reverse_bits_k y = x).
Proof.
  intros Hx. repeat split.
  - apply reverse_bits_k_involutive, Hx.
  - apply reverse_bits_k_nonneg.
  - apply (reverse_bits_k_range x).
  - intros y Hy E.
    rewrite <- (reverse_bits_k_involutive x Hx),
            <- (reverse_bits_k_involutive y Hy), E.
    reflexivity.
  - exists (reverse_bits_k x). split.
    + apply reverse_bits_k_range.
    + apply reverse_bits_k_involutive, Hx.
Qed.

Lemma reverse_bits_k_involution_witness :
  reverse_bits_k (reverse_bits_k 3) = 3 /\
  0 <= reverse_bits_k 3 < 2 ^ K /\
  (forall y, 0 <= y < 2 ^ K -> reverse_bits_k 3 = reverse_bits_k y -> 3 = y) /\
  (exists y, 0 <= y < 2 ^ K /\ reverse_bits_k y = 3).
Proof.
  apply (reverse_bits_k_involution 3). unfold K. lia.
Defined.

(** ** C8 *)

(** C8: for every 32-bit [x], also with bits set at position [K] and
    above, [reverse_bits_k x = reverse_bits_k (x mod 2^K)], and the
    result is below [2^K]. *)
Theorem reverse_bits_k_low_bits_only (x : Z) :
  0 <= x < 2 ^ 32 ->
  reverse_bits_k x = reverse_bits_k (x mod 2 ^ K) /\
  0 <= reverse_bits_k x < 2 ^ K.
Proof.
  intros _. split; [|apply reverse_bits_k_range].
  apply Z.bits_inj'. intros j Hj.
  fold (bit (reverse_bits_k x) j). fold (bit (reverse_bits_k (x mod 2 ^ K)) j).
  rewrite !reverse_bits_k_bit by assumption.
  destruct (Z.ltb_spec j 10) as [Hlt|Hge]; [|reflexivity].
  cbn [andb]. unfold bit. rewrite K_value, Z.testbit_mod_pow2 by lia.
  replace (9 - j <? 10) with true by (symmetry; apply Z.ltb_lt; lia).
  reflexivity.
Qed.

Lemma reverse_bits_k_low_bits_only_witness :
  reverse_bits_k 0xFFFFF405 = reverse_bits_k (0xFFFFF405 mod 2 ^ K) /\
  0 <= reverse_bits_k 0xFFFFF405 < 2 ^ K.
Proof.
  apply (reverse_bits_k_low_bits_only 0xFFFFF405). lia.
Defined.

(** ** The integer square root *)

Lemma shr32_1 x : shr32 x 1 = x / 2.
Proof. unfold shr32. rewrite Z.shiftr_div_pow2 by lia. reflexivity. Qed.

Lemma shr32_2 x : shr32 x 2 = x / 4.
Proof. unfold shr32. rewrite Z.shiftr_div_pow2 by lia. reflexivity. Qed.

Lemma pow_pred (a k : Z) : 1 <= k -> a ^ k = a * a ^ (k - 1).
Proof.
  intros Hk. replace k with (Z.succ (k - 1)) at 1 by lia.
  apply Z.pow_succ_r. lia.
Qed.

(** [while (bit > n) bit >>= 2;] keeps [align_inv] and shrinks [bit]. *)
Lemma align_step n b :
  0 <= n ->
  align_inv n b -> (b >? n) = true ->
  align_inv n (shr32 b 2) /\ (Z.to_nat (shr32 b 2) < Z.to_nat b)%nat.
Proof.
  intros Hn0 [[-> ->]|(k & Hk & -> & Hn)] Hgt; [discriminate|].
  apply Z.gtb_lt in Hgt. rewrite shr32_2.
  destruct (Z.eq_dec k 0) as [->|Hk0].
  - change (4 ^ 0) with 1 in *. change (1 / 4) with 0.
    split; [left; lia | lia].
  - rewrite (pow_pred 4 k) in * by lia.
    assert (0 < 4 ^ (k - 1)) by (apply Z.pow_pos_nonneg; lia).
    replace (4 * 4 ^ (k - 1) / 4) with (4 ^ (k - 1))
      by (symmetry; rewrite Z.mul_comm; apply Z.div_mul; lia).
    split; [|lia].
    right. exists (k - 1). repeat split; lia.
Qed.

(** One turn of [while (bit) { ... }] keeps [root_inv] and shrinks
    [bit]; none of its additions or subtractions wraps. *)
Lemma root_step n s :
  root_inv n s -> negb (v_bit s =? 0) = true ->
  root_inv n (isqrt_body s) /\
  (Z.to_nat (v_bit (isqrt_body s)) < Z.to_nat (v_bit s))%nat.
Proof.
  intros (R & HR & HRn & Hn & Hcases) Hbit.
  apply negb_true_iff, Z.eqb_neq in Hbit.
  destruct Hcases as [(H0 & _)|(k & b & Hk & Hb & Hbb & Hres & Hlt & Hle)];
    [contradiction|].
  destruct s as [n' res bit]. cbn [v_n v_res v_bit] in *. subst n' res bit.
  assert (Hbpos : 1 <= b) by (subst b; pose proof (Z.pow_pos_nonneg 2 k); lia).
  assert (Hsum : add32 (2 * R * b) (b * b) = 2 * R * b + b * b).
  { apply u32_small. nia. }
  assert (Hhalf : shr32 (2 * R * b) 1 = R * b).
  { rewrite shr32_1. replace (2 * R * b) with (R * b * 2) by ring.
    apply Z.div_mul. lia. }
  assert (Hquarter : shr32 (b * b) 2 = (b / 2) * (b / 2) /\
                     (k = 0 /\ b = 1 \/
                      1 <= k /\ b = 2 * (b / 2) /\ b / 2 = 2 ^ (k - 1))).
  { rewrite shr32_2. destruct (Z.eq_dec k 0) as [->|Hk0].
    - subst b. split; [reflexivity|left; split; reflexivity].
    - rewrite (pow_pred 2 k) in Hb by lia.
      assert (E : b / 2 = 2 ^ (k - 1)).
      { subst b. rewrite Z.mul_comm. apply Z.div_mul. lia. }
      rewrite E. split; [|right; repeat split; lia].
      subst b. replace (2 * 2 ^ (k - 1) * (2 * 2 ^ (k - 1)))
        with (2 ^ (k - 1) * 2 ^ (k - 1) * 4) by ring.
      apply Z.div_mul. lia. }
  destruct Hquarter as [Hq Hkb].
  assert (Hvar : (Z.to_nat (b / 2 * (b / 2)) < Z.to_nat (b * b))%nat).
  { destruct Hkb as [[_ ->]|(_ & Hb2 & _)]; [change (1 / 2) with 0; lia|].
    set (h := b / 2) in *. apply Z2Nat.inj_lt; nia. }
  unfold isqrt_body. rewrite Hsum, Hhalf, Hq.
  destruct (Z.geb_spec (n - R * R) (2 * R * b + b * b)) as [Hge|Hlt'].
  - (* the digit is set *)
    assert (Hsub : sub32 (n - R * R) (2 * R * b + b * b)
                   = n - (R + b) * (R + b)).
    { unfold sub32. rewrite u32_small by nia. ring. }
    assert (Hadd : add32 (R * b) (b * b) = R * b + b * b).
    { apply u32_small. nia. }
    rewrite Hsub, Hadd. unfold root_inv. cbn [v_n v_res v_bit]. split.
    + exists (R + b). split; [lia|]. split; [nia|]. split; [reflexivity|].
      destruct Hkb as [[-> ->]|(Hk1 & Hb2 & Hb')].
      * left. change (1 / 2) with 0. repeat split; nia.
      * right. exists (k - 1), (b / 2). repeat split; try lia; nia.
    + exact Hvar.
  - (* the digit is clear *)
    unfold root_inv. cbn [v_n v_res v_bit]. split.
    + exists R. split; [assumption|]. split; [assumption|].
      split; [reflexivity|].
      destruct Hkb as [[-> ->]|(Hk1 & Hb2 & Hb')].
      * left. change (1 / 2) with 0. repeat split; nia.
      * right. exists (k - 1), (b / 2). repeat split; try lia; nia.
    + exact Hvar.
Qed.

Lemma root_inv_start n b :
  align_inv n b -> (b >? n) = false -> 0 <= n ->
  root_inv n (mk_isqrt_vars n 0 b).
Proof.
  intros Ha Hle Hn. exists 0. cbn [v_n v_res v_bit].
  split; [lia|]. split; [lia|]. split; [ring|].
  destruct Ha as [[-> ->]|(k & Hk & -> & Hlt)]; [left; lia|].
  right. exists k, (2 ^ k).
  assert (E : 4 ^ k = 2 ^ k * 2 ^ k).
  { change 4 with (2 * 2). rewrite Z.pow_mul_l. reflexivity. }
  assert (2 ^ k <= 2 ^ 15) by (apply Z.pow_le_mono_r; lia).
  change (2 ^ 15) with 32768 in *.
  rewrite E in Hlt.
  split; [lia|]. split; [reflexivity|]. split; [assumption|].
  split; [reflexivity|]. split; lia.
Qed.

Lemma isqrt_converges {HW} (respond : env HW) (w : world HW) n :
  0 <= n < 2 ^ 32 ->
  converges respond w (isqrt n)
    (fun r w' => w' = w /\ 0 <= r /\ r * r <= n < (r + 1) * (r + 1)).
Proof.
  intros Hn. unfold isqrt.
  eapply converges_bind.
  - apply (converges_while_pure respond (align_inv n) Z.to_nat).
    + intros b. apply align_step. lia.
    + right. exists 15. change (shl32 1 30) with 1073741824.
      repeat split; lia.
  - intros b w1 (Ha & Hle & ->). cbn beta.
    eapply converges_bind.
    + apply (converges_while_pure respond (root_inv n)
               (fun s => Z.to_nat (v_bit s))).
      * apply root_step.
      * apply root_inv_start; [assumption|assumption|lia].
    + intros s w2 ((R & HR & HRn & _ & Hcases) & Hbit & ->). cbn beta.
      apply converges_ret. split; [reflexivity|].
      apply negb_false_iff, Z.eqb_eq in Hbit.
      destruct Hcases as [(_ & -> & Hlt)|(k & b' & Hk & Hb & Hbb & _)].
      * lia.
      * assert (0 < b') by (subst b'; apply Z.pow_pos_nonneg; lia). nia.
Qed.

(** ** C10 *)

(** C10: for every 32-bit [n], [isqrt n] returns, whatever the
    environment and without touching it, and what it returns is the
    floor of the square root of [n]: [r * r <= n < (r + 1) * (r + 1)]. *)
Theorem isqrt_floor (n : Z) :
  0 <= n < 2 ^ 32 ->
  forall HW (respond : env HW) (w : world HW),
  exists fuel r,
    returned (run respond fuel (isqrt n) w) = Some r /\
    final (run respond fuel (isqrt n) w) = w /\
    r * r <= n /\ n < (r + 1) * (r + 1) /\
    r = Z.sqrt n.
Proof.
  intros Hn HW respond w.
  destruct (isqrt_converges respond w n Hn) as [fuel H].
  exists fuel. unfold returned, final.
  destruct (run respond fuel (isqrt n) w) as [w' [[r fuel']|]];
    [|contradiction].
  destruct H as (-> & Hr & Hsq). exists r. cbn.
  repeat split; try lia.
  symmetry. apply Z.sqrt_unique. lia.
Qed.

Lemma isqrt_floor_witness :
  exists fuel r,
    returned (run (model_env ideal_hw) fuel (isqrt 1234567890)
                (boot power_on)) = Some r /\
    final (run (model_env ideal_hw) fuel (isqrt 1234567890) (boot power_on))
    = boot power_on /\
    r * r <= 1234567890 /\ 1234567890 < (r + 1) * (r + 1) /\
    r = Z.sqrt 1234567890.
Proof. apply (isqrt_floor 1234567890). lia. Defined.

(** The call made by [main]. *)
Example isqrt_main_call :
  returned (run (model_env ideal_hw) 40 (isqrt 1234567890) (boot power_on))
  = Some 35136.
Proof. reflexivity. Qed.

(** ** Facts about logs *)

Lemma frame_value : Z.of_nat frame = 1024.
Proof. reflexivity. Qed.

Opaque frame.

Lemma writes_app l1 l2 : writes (l1 ++ l2) = writes l1 ++ writes l2.
Proof. apply flat_map_app. Qed.

Lemma samples_app l1 l2 : samples (l1 ++ l2) = samples l1 ++ samples l2.
Proof. apply flat_map_app. Qed.

Lemma printed_app fmt l1 l2 :
  printed fmt (l1 ++ l2) = printed fmt l1 ++ printed fmt l2.
Proof. apply flat_map_app. Qed.

Lemma upto_S n : upto (S n) = upto n ++ [Z.of_nat n].
Proof. unfold upto. rewrite seq_S, map_app. reflexivity. Qed.

Lemma upto_length n : List.length (upto n) = n.
Proof. unfold upto. rewrite List.length_map, List.length_seq. reflexivity. Qed.

Lemma writes_snoc_other l e :
  is_write e = false -> writes (l ++ [e]) = writes l.
Proof.
  intros H. rewrite writes_app.
  destruct e; try discriminate; cbn; apply app_nil_r.
Qed.

Lemma samples_snoc_other l e :
  is_out e = false -> samples (l ++ [e]) = samples l.
Proof.
  intros H. rewrite samples_app.
  destruct e; try discriminate; cbn; apply app_nil_r.
Qed.

Lemma printed_snoc_other fmt l e :
  is_printf e = false -> printed fmt (l ++ [e]) = printed fmt l.
Proof.
  intros H. rewrite printed_app.
  destruct e; try discriminate; cbn; apply app_nil_r.
Qed.

Lemma printed_snoc fmt l f args :
  printed fmt (l ++ [IoPrintf f args]) =
  printed fmt l ++ (if String.eqb f fmt then [args] else []).
Proof. rewrite printed_app. cbn. rewrite app_nil_r. reflexivity. Qed.

Lemma filter_snoc {A} (f : A -> bool) l e :
  filter f (l ++ [e]) = filter f l ++ (if f e then [e] else []).
Proof. rewrite filter_app. reflexivity. Qed.

(** Where a log with one more event can be split. *)
Lemma snoc_split {A} (l : list A) (e : A) l1 e' l2 :
  l ++ [e] = l1 ++ e' :: l2 ->
  (l2 = [] /\ l1 = l /\ e' = e) \/
  (exists l2', l2 = l2' ++ [e] /\ l = l1 ++ e' :: l2').
Proof.
  intros H. destruct l2 as [|x l2 _] using rev_ind.
  - apply app_inj_tail in H. left. intuition congruence.
  - right. exists l2.
    rewrite app_comm_cons, app_assoc in H. apply app_inj_tail in H.
    destruct H as [-> ->]. split; reflexivity.
Qed.

Lemma add32_succ n :
  (n < frame)%nat -> add32 (Z.of_nat n) 1 = Z.of_nat (S n).
Proof.
  intros H. pose proof frame_value. unfold add32. rewrite u32_small; lia.
Qed.

Lemma returned_some {HW R} (o : world HW * option (R * nat)) r :
  returned o = Some r -> exists f, snd o = Some (r, f).
Proof.
  unfold returned. destruct (snd o) as [[r' f]|]; [|discriminate].
  intros E. inversion E. eauto.
Qed.

Lemma returned_none {HW R} (o : world HW * option (R * nat)) :
  snd o = None -> returned o = None.
Proof. unfold returned. intros ->. reflexivity. Qed.

(** What a triple says about a run that returned. *)
Lemma hoare_returned {HW R} (respond : env HW) Safe w (t : itree socE R)
  Post fuel r :
  hoare respond Safe w t Post ->
  returned (run respond fuel t w) = Some r ->
  Post r (final (run respond fuel t w)).
Proof.
  intros H E. destruct (returned_some _ _ E) as [f Hf].
  destruct (H fuel) as [_ Hp]. rewrite Hf in Hp. exact Hp.
Qed.

Lemma hoare_stopped {HW R} (respond : env HW) Safe w (t : itree socE R)
  Post fuel :
  hoare respond Safe w t Post -> Safe (final (run respond fuel t w)).
Proof. intros H. apply (H fuel). Qed.

(** ** Push first, pull afterwards *)

Lemma push_then_pull_nil : push_then_pull [].
Proof.
  split.
  - exists 0%nat. split; [lia|reflexivity].
  - intros [|] e l2 H; discriminate.
Qed.

Lemma push_then_pull_write l n :
  writes l = upto n -> (n < frame)%nat -> no_reads l ->
  push_then_pull (l ++ [IoWriteIN (Z.of_nat n)]).
Proof.
  intros Hw Hn Hnr. split.
  - exists (S n). split; [lia|]. rewrite writes_app, Hw, upto_S. reflexivity.
  - intros l1 e l2 H He. apply snoc_split in H.
    destruct H as [(_ & _ & ->)|(l2' & _ & ->)]; [discriminate|].
    rewrite Hnr in He; [discriminate|]. apply in_elt.
Qed.

Lemma push_then_pull_other l e :
  push_then_pull l -> is_write e = false ->
  (is_read e = true -> writes l = upto frame) ->
  push_then_pull (l ++ [e]).
Proof.
  intros [(n & Hn & Hw) Hsplit] Hnw Hr. split.
  - exists n. rewrite writes_snoc_other by assumption. auto.
  - intros l1 e' l2 H He. apply snoc_split in H.
    destruct H as [(_ & -> & ->)|(l2' & _ & ->)]; [auto|].
    eapply Hsplit; [reflexivity|assumption].
Qed.

Lemma no_reads_snoc l e :
  no_reads l -> is_read e = false -> no_reads (l ++ [e]).
Proof.
  intros Hl He x Hx. apply in_app_or in Hx.
  destruct Hx as [Hx|[<-|[]]]; auto.
Qed.

Section PushOrder.

Context {HW : Type} (respond : env HW).

(** Once all words are pushed, any event that is not a write keeps the
    order. *)
Lemma pulling_trigger {X} (e : socE X) w :
  (forall x, is_write (io_of e x) = false) ->
  in_order w -> pulling w ->
  hoare respond in_order w (ITree.trigger e) (fun _ w' => pulling w').
Proof.
  intros He Hs Hp. apply hoare_trigger; [assumption|].
  intros x s _. unfold in_order, pulling. cbn [log]. split.
  - apply push_then_pull_other; auto.
  - rewrite writes_snoc_other; auto.
Qed.

Lemma push_phase_order w :
  in_order w -> writes (log w) = [] -> no_reads (log w) ->
  hoare respond in_order w push_phase (fun _ w' => pulling w').
Proof.
  intros Hs Hw Hnr. unfold push_phase. pose proof frame_value as HN.
  apply hoare_bind with (Mid := fun _ w' => pulling w').
  - apply hoare_while with
      (Inv := fun i w' => exists n, i = Z.of_nat n /\ (n <= frame)%nat /\
                                    writes (log w') = upto n /\
                                    no_reads (log w')).
    + intros i w1 Hs1 (n & -> & Hn & Hw1 & Hnr1).
      apply hoare_ret; [assumption|].
      rewrite N_value. destruct (Z.ltb_spec (Z.of_nat n) 1024) as [Hlt|Hge].
      * apply hoare_bind with
          (Mid := fun _ w' => writes (log w') = upto (S n) /\
                              no_reads (log w')).
        -- apply hoare_trigger; [assumption|].
           intros [] s _. unfold in_order. cbn [log io_of]. split.
           ++ apply push_then_pull_write; [assumption|lia|assumption].
           ++ split.
              ** rewrite writes_app, Hw1, upto_S. reflexivity.
              ** apply no_reads_snoc; [assumption|reflexivity].
        -- intros _ w2 Hs2 [Hw2 Hnr2]. apply hoare_ret; [assumption|].
           exists (S n). rewrite add32_succ by lia.
           split; [reflexivity|]. split; [lia|]. split; assumption.
      * unfold pulling. replace frame with n by lia. assumption.
    + assumption.
    + exists 0%nat. split; [reflexivity|]. split; [lia|]. split; assumption.
  - intros _ w1 Hs1 Hp. apply hoare_ret; assumption.
Qed.

Lemma wait_valid_order w :
  in_order w -> pulling w ->
  hoare respond in_order w wait_valid (fun _ w' => pulling w').
Proof.
  intros Hs Hp. unfold wait_valid.
  apply hoare_while with (Inv := fun _ w' => pulling w'); [|assumption..].
  intros [] w1 Hs1 Hp1.
  apply hoare_bind with (Mid := fun _ w' => pulling w').
  - apply pulling_trigger; auto.
  - intros stat w2 Hs2 Hp2. apply hoare_ret; [assumption|].
    destruct (Z.land stat 1 =? 0); [|assumption].
    apply hoare_ret; assumption.
Qed.

Lemma pull_phase_order w :
  in_order w -> pulling w ->
  hoare respond in_order w pull_phase (fun _ w' => pulling w').
Proof.
  intros Hs Hp. unfold pull_phase.
  apply hoare_bind with (Mid := fun _ w' => pulling w').
  - apply hoare_while with (Inv := fun _ w' => pulling w'); [|assumption..].
    intros [i errors] w1 Hs1 Hp1. apply hoare_ret; [assumption|].
    destruct (i <? N); [|assumption].
    apply hoare_bind with (Mid := fun _ w' => pulling w').
    + unfold pull_body.
      apply hoare_bind with (Mid := fun _ w' => pulling w');
        [apply wait_valid_order; assumption|].
      intros _ w2 Hs2 Hp2.
      apply hoare_bind with (Mid := fun _ w' => pulling w');
        [apply pulling_trigger; auto|].
      intros sample w3 Hs3 Hp3.
      destruct (negb (sample =? reverse_bits_k i)).
      * apply hoare_bind with (Mid := fun _ w' => pulling w');
          [apply pulling_trigger; auto|].
        intros _ w4 Hs4 Hp4. apply hoare_ret; assumption.
      * apply hoare_ret; assumption.
    + intros errors' w2 Hs2 Hp2. apply hoare_ret; assumption.
  - intros st w1 Hs1 Hp1. apply hoare_ret; assumption.
Qed.

Lemma bitrev_selftest_order s :
  hoare respond in_order (boot s) bitrev_selftest (fun _ w' => pulling w').
Proof.
  unfold bitrev_selftest.
  apply hoare_bind with
    (Mid := fun _ w' => writes (log w') = [] /\ no_reads (log w')).
  - apply hoare_trigger; [apply push_then_pull_nil|].
    intros [] s' _. unfold in_order. cbn. split; [|split; [reflexivity|]].
    + apply (push_then_pull_other []);
        [apply push_then_pull_nil|reflexivity|discriminate].
    + intros e [<-|[]]. reflexivity.
  - intros _ w1 Hs1 [Hw1 Hnr1].
    apply hoare_bind with (Mid := fun _ w' => pulling w');
      [apply push_phase_order; assumption|].
    intros _ w2 Hs2 Hp2.
    apply hoare_bind with (Mid := fun _ w' => pulling w');
      [apply pull_phase_order; assumption|].
    intros errors w3 Hs3 Hp3.
    apply hoare_bind with (Mid := fun _ w' => pulling w').
    + unfold report. destruct (errors =? 0); apply pulling_trigger; auto.
    + intros _ w4 Hs4 Hp4. apply pulling_trigger; auto.
Qed.

End PushOrder.

(** ** C4 *)

(** C4: in every execution of [bitrev_selftest], against any
    environment and stopped after any number of steps, the values
    written to [IN] so far are [0, 1, ..., n-1] for some [n <= N], in
    that order; a read of [OUT] or [STAT] is preceded by all [N] writes
    and followed by none; and an execution that returned has written
    exactly [0, 1, ..., N-1]. *)
Theorem selftest_pushes_in_order {HW} (respond : env HW) (s : HW) (fuel : nat) :
  let o := run respond fuel bitrev_selftest (boot s) in
  (exists n, (n <= frame)%nat /\ writes (log (final o)) = upto n) /\
  (forall l1 e l2, log (final o) = l1 ++ e :: l2 -> is_read e = true ->
     writes l1 = upto frame /\ writes l2 = []) /\
  (returned o = Some tt -> writes (log (final o)) = upto frame) /\
  Z.of_nat frame = N /\ N = 1024.
Proof.
  cbn zeta.
  pose proof (hoare_stopped _ _ _ _ _ fuel (bitrev_selftest_order respond s))
    as [Hn Hsplit].
  split; [exact Hn|]. split; [|split; [|split; reflexivity]].
  - intros l1 e l2 E He. pose proof (Hsplit l1 e l2 E He) as H1.
    split; [exact H1|].
    destruct Hn as (n & Hn & Hw). rewrite E, writes_app, H1 in Hw.
    cbn [writes flat_map] in Hw.
    replace (match e with IoWriteIN v => [v] | _ => [] end) with (@nil Z) in Hw
      by (destruct e; try discriminate; reflexivity).
    cbn [app] in Hw. fold (writes l2) in Hw.
    assert (Hlen : List.length (upto frame ++ writes l2) = List.length (upto n))
      by (rewrite Hw; reflexivity).
    rewrite List.length_app, !upto_length in Hlen.
    destruct (writes l2); [reflexivity|cbn in Hlen; lia].
  - intros E.
    apply (hoare_returned _ _ _ _ _ _ _ (bitrev_selftest_order respond s) E).
Qed.

Lemma selftest_pushes_in_order_witness :
  writes (log (final (run (model_env ideal_hw) plenty bitrev_selftest
                        (boot power_on)))) = upto frame.
Proof.
  destruct (selftest_pushes_in_order (model_env ideal_hw) power_on plenty)
    as (_ & _ & H & _).
  apply H. vm_compute. reflexivity.
Defined.

(** ** The ready/pop handshake *)

Lemma handshake_ok_app a l1 l2 :
  handshake_ok a (l1 ++ l2) =
  handshake_ok a l1 && handshake_ok (armed_after a l1) l2.
Proof.
  revert a. induction l1 as [|e l1 IH]; intros a; cbn; [reflexivity|].
  rewrite IH, andb_assoc. reflexivity.
Qed.

Lemma armed_after_app a l1 l2 :
  armed_after a (l1 ++ l2) = armed_after (armed_after a l1) l2.
Proof. revert a. induction l1 as [|e l1 IH]; intros a; cbn; auto. Qed.

Lemma ready_iff stat : ready stat = true <-> Z.land stat 1 <> 0.
Proof. unfold ready. rewrite negb_true_iff, Z.eqb_neq. reflexivity. Qed.

Lemma armed_after_true l :
  armed_after false l = true ->
  exists l0 stat, l = l0 ++ [IoReadSTAT stat] /\ ready stat = true.
Proof.
  destruct l as [|e l _] using rev_ind; [discriminate|].
  rewrite armed_after_app. cbn. destruct e; try discriminate.
  intros H. eauto.
Qed.

(** What the monitor says in plain words: a read of [OUT] comes right
    after a read of [STAT] that had bit 0 set ... *)
Lemma handshake_ok_out l l1 v l2 :
  handshake_ok false l = true -> l = l1 ++ IoReadOUT v :: l2 ->
  exists l0 stat, l1 = l0 ++ [IoReadSTAT stat] /\ Z.land stat 1 <> 0.
Proof.
  intros H ->. rewrite handshake_ok_app in H. cbn in H.
  apply andb_prop in H. destruct H as [_ H].
  apply andb_prop in H. destruct H as [H _].
  destruct (armed_after_true l1 H) as (l0 & stat & -> & Hr).
  exists l0, stat. split; [reflexivity|]. apply ready_iff, Hr.
Qed.

(** ... and what comes right after such a read of [STAT] is a read of
    [OUT]. *)
Lemma handshake_ok_ready l l1 stat e l2 :
  handshake_ok false l = true -> l = l1 ++ IoReadSTAT stat :: e :: l2 ->
  Z.land stat 1 <> 0 -> exists v, e = IoReadOUT v.
Proof.
  intros H -> Hr. apply ready_iff in Hr.
  rewrite handshake_ok_app in H. cbn in H. rewrite Hr in H.
  apply andb_prop in H. destruct H as [_ H].
  apply andb_prop in H. destruct H as [_ H].
  apply andb_prop in H. destruct H as [H _].
  destruct e; try discriminate. eauto.
Qed.

Lemma handshake_ok_snoc l e :
  handshake_ok false (l ++ [e]) =
  handshake_ok false l &&
  (if is_out e then armed_after false l else negb (armed_after false l)).
Proof. rewrite handshake_ok_app. cbn. rewrite andb_true_r. reflexivity. Qed.

(** An idle driver may do anything but read [OUT]. *)
Lemma handshake_idle_step n l e :
  handshake_ok false l = true -> handshake_state false n l ->
  is_out e = false ->
  handshake_ok false (l ++ [e]) = true /\
  handshake_state (is_ready_stat e) n (l ++ [e]).
Proof.
  intros Hok (Ha & Hp & Hr) He. split.
  - rewrite handshake_ok_snoc, Hok, He, Ha. reflexivity.
  - unfold handshake_state.
    rewrite armed_after_app, !filter_snoc, He, !List.length_app, Hp, Hr.
    cbn [armed_after].
    destruct (is_ready_stat e); cbn; repeat split; lia.
Qed.

(** An armed driver reads [OUT]. *)
Lemma handshake_pop_step n l v :
  handshake_ok false l = true -> handshake_state true n l ->
  handshake_ok false (l ++ [IoReadOUT v]) = true /\
  handshake_state false (S n) (l ++ [IoReadOUT v]).
Proof.
  intros Hok (Ha & Hp & Hr). split.
  - rewrite handshake_ok_snoc, Hok, Ha. reflexivity.
  - unfold handshake_state.
    rewrite armed_after_app, !filter_snoc, !List.length_app, Hp, Hr. cbn.
    repeat split; lia.
Qed.

Section Handshake.

Context {HW : Type} (respond : env HW).

Lemma idle_trigger {X} (e : socE X) n w :
  (forall x, is_out (io_of e x) = false) ->
  (forall x, is_ready_stat (io_of e x) = false) ->
  in_step w -> idle n w ->
  hoare respond in_step w (ITree.trigger e) (fun _ w' => idle n w').
Proof.
  intros He Hr Hs Hi. apply hoare_trigger; [assumption|].
  intros x s _. unfold in_step, idle. cbn [log].
  destruct (handshake_idle_step n (log w) (io_of e x)) as [H1 H2]; auto.
  rewrite Hr in H2. auto.
Qed.

Lemma push_phase_handshake w :
  in_step w -> idle 0 w ->
  hoare respond in_step w push_phase (fun _ w' => idle 0 w').
Proof.
  intros Hs Hi. unfold push_phase.
  apply hoare_bind with (Mid := fun _ w' => idle 0 w').
  - apply hoare_while with (Inv := fun _ w' => idle 0 w'); [|assumption..].
    intros i w1 Hs1 Hi1. apply hoare_ret; [assumption|].
    destruct (i <? N); [|assumption].
    apply hoare_bind with (Mid := fun _ w' => idle 0 w');
      [apply idle_trigger; auto|].
    intros _ w2 Hs2 Hi2. apply hoare_ret; assumption.
  - intros _ w1 Hs1 Hi1. apply hoare_ret; assumption.
Qed.

(** The busy-wait leaves the driver armed. *)
Lemma wait_valid_handshake n w :
  in_step w -> idle n w ->
  hoare respond in_step w wait_valid
    (fun _ w' => handshake_state true n (log w')).
Proof.
  intros Hs Hi. unfold wait_valid.
  apply hoare_while with (Inv := fun _ w' => idle n w'); [|assumption..].
  intros [] w1 Hs1 Hi1.
  apply hoare_bind with
    (Mid := fun stat w' => handshake_state (ready stat) n (log w')).
  - apply hoare_trigger; [assumption|].
    intros stat s _. unfold in_step. cbn [log io_of].
    apply (handshake_idle_step n (log w1) (IoReadSTAT stat)); auto.
  - intros stat w2 Hs2 Hst. apply hoare_ret; [assumption|].
    unfold ready in Hst. destruct (Z.land stat 1 =? 0); cbn in Hst.
    + apply hoare_ret; assumption.
    + assumption.
Qed.

Lemma pull_phase_handshake w :
  in_step w -> idle 0 w ->
  hoare respond in_step w pull_phase (fun _ w' => idle frame w').
Proof.
  intros Hs Hi. unfold pull_phase. pose proof frame_value as HN.
  apply hoare_bind with (Mid := fun _ w' => idle frame w').
  - apply hoare_while with
      (Inv := fun st w' => exists n, fst st = Z.of_nat n /\
                                     (n <= frame)%nat /\ idle n w').
    + intros [i errors] w1 Hs1 (n & Hi1 & Hn & Hidle).
      cbn [fst] in Hi1. subst i.
      apply hoare_ret; [assumption|].
      rewrite N_value. destruct (Z.ltb_spec (Z.of_nat n) 1024) as [Hlt|Hge].
      * apply hoare_bind with (Mid := fun _ w' => idle (S n) w').
        -- unfold pull_body.
           apply hoare_bind with
             (Mid := fun _ w' => handshake_state true n (log w'));
             [apply wait_valid_handshake; assumption|].
           intros _ w2 Hs2 Harmed.
           apply hoare_bind with (Mid := fun _ w' => idle (S n) w').
           ++ apply hoare_trigger; [assumption|].
              intros v s _. unfold in_step, idle. cbn [log io_of].
              apply handshake_pop_step; assumption.
           ++ intros sample w3 Hs3 Hi3.
              destruct (negb (sample =? reverse_bits_k (Z.of_nat n))).
              ** apply hoare_bind with (Mid := fun _ w' => idle (S n) w');
                   [apply idle_trigger; auto|].
                 intros _ w4 Hs4 Hi4. apply hoare_ret; assumption.
              ** apply hoare_ret; assumption.
        -- intros errors' w2 Hs2 Hi2. apply hoare_ret; [assumption|].
           exists (S n). cbn [fst]. rewrite add32_succ by lia.
           split; [reflexivity|]. split; [lia|assumption].
      * unfold idle. replace frame with n by lia. assumption.
    + assumption.
    + exists 0%nat. split; [reflexivity|]. split; [lia|assumption].
  - intros st w1 Hs1 Hi1. apply hoare_ret; assumption.
Qed.

Lemma bitrev_selftest_handshake s :
  hoare respond in_step (boot s) bitrev_selftest (fun _ w' => idle frame w').
Proof.
  assert (Hs0 : in_step (boot s)) by reflexivity.
  assert (Hi0 : idle 0 (boot s)) by (repeat split).
  unfold bitrev_selftest.
  apply hoare_bind with (Mid := fun _ w' => idle 0 w');
    [apply idle_trigger; auto|].
  intros _ w1 Hs1 Hi1.
  apply hoare_bind with (Mid := fun _ w' => idle 0 w');
    [apply push_phase_handshake; assumption|].
  intros _ w2 Hs2 Hi2.
  apply hoare_bind with (Mid := fun _ w' => idle frame w');
    [apply pull_phase_handshake; assumption|].
  intros errors w3 Hs3 Hi3.
  apply hoare_bind with (Mid := fun _ w' => idle frame w').
  - unfold report. destruct (errors =? 0); apply idle_trigger; auto.
  - intros _ w4 Hs4 Hi4. apply idle_trigger; auto.
Qed.

End Handshake.

(** ** C5 *)

(** C5: in every execution of [bitrev_selftest], against any
    environment and stopped after any number of steps, every read of
    [OUT] comes immediately after a read of [STAT] that returned a value
    with bit 0 set, and whatever follows such a read of [STAT] is a read
    of [OUT]; an execution that returned has read [OUT] exactly [N]
    times, once for each of its [N] ready observations. *)
Theorem selftest_pops_when_ready {HW} (respond : env HW) (s : HW) (fuel : nat) :
  let o := run respond fuel bitrev_selftest (boot s) in
  (forall l1 v l2, log (final o) = l1 ++ IoReadOUT v :: l2 ->
     exists l0 stat, l1 = l0 ++ [IoReadSTAT stat] /\ Z.land stat 1 <> 0) /\
  (forall l1 stat e l2, log (final o) = l1 ++ IoReadSTAT stat :: e :: l2 ->
     Z.land stat 1 <> 0 -> exists v, e = IoReadOUT v) /\
  (returned o = Some tt ->
     List.length (filter is_out (log (final o))) = frame /\
     List.length (filter is_ready_stat (log (final o))) = frame) /\
  Z.of_nat frame = N.
Proof.
  cbn zeta.
  pose proof (hoare_stopped _ _ _ _ _ fuel
                (bitrev_selftest_handshake respond s)) as Hok.
  cbn beta in Hok.
  split; [|split; [|split; [|reflexivity]]].
  - intros l1 v l2 E. eapply handshake_ok_out; eassumption.
  - intros l1 stat e l2 E. eapply handshake_ok_ready; eassumption.
  - intros E.
    pose proof (hoare_returned _ _ _ _ _ _ _
                  (bitrev_selftest_handshake respond s) E) as (_ & Hp & Hr).
    split; assumption.
Qed.

Lemma selftest_pops_when_ready_witness :
  let o := run (model_env ideal_hw) plenty bitrev_selftest (boot power_on) in
  List.length (filter is_out (log (final o))) = frame /\
  List.length (filter is_ready_stat (log (final o))) = frame.
Proof.
  destruct (selftest_pops_when_ready (model_env ideal_hw) power_on plenty)
    as (_ & _ & H & _).
  apply H. vm_compute. reflexivity.
Defined.

(** ** The driver against a hardware model *)

Lemma mismatches_S out n :
  mismatches out (S n) =
  mismatches out n ++ (if mismatch out n then [n] else []).
Proof. unfold mismatches. rewrite seq_S, filter_app. reflexivity. Qed.

Lemma mismatches_length out n : (List.length (mismatches out n) <= n)%nat.
Proof.
  unfold mismatches. etransitivity; [apply filter_length_le|].
  rewrite List.length_seq. lia.
Qed.

Lemma mismatches_none out n :
  (forall i, (i < n)%nat -> mismatch out i = false) -> mismatches out n = [].
Proof.
  induction n as [|n IH]; intros H; [reflexivity|].
  rewrite mismatches_S, IH, H by auto. reflexivity.
Qed.

Lemma mismatches_single out n j :
  (j < n)%nat -> mismatch out j = true ->
  (forall i, (i < n)%nat -> i <> j -> mismatch out i = false) ->
  mismatches out n = [j].
Proof.
  induction n as [|n IH]; intros Hj Hbad Hgood; [lia|].
  rewrite mismatches_S. destruct (Nat.eq_dec j n) as [->|Hne].
  - rewrite Hbad, mismatches_none; [reflexivity|].
    intros i Hi. apply Hgood; lia.
  - rewrite IH, Hgood by (auto; lia). reflexivity.
Qed.

(** The model's answer to an event, and the state it moves to. *)
Ltac model_said E x s := cbn in E; injection E as ? ?; subst x s.
Ltac model_did E s := cbn in E; injection E as ?; subst s.

Section Model.

Variable m : hw_model.

(** Events that neither pop nor print leave the state alone. *)
Lemma pull_state_quiet n w s e :
  pull_state m n w -> popped s = popped (hw w) ->
  is_out e = false -> is_printf e = false ->
  pull_state m n (mk_world s (log w ++ [e])).
Proof.
  intros (Hp & Hs & Hm & Hok & Hko) Hpop Ho Hpr.
  unfold pull_state; cbn [hw log].
  rewrite samples_snoc_other, !printed_snoc_other by assumption.
  repeat apply conj; congruence.
Qed.

Lemma wait_valid_model n w :
  pull_state m n w ->
  hoare (model_env m) anywhere w wait_valid (fun _ w' => pull_state m n w').
Proof.
  intros Hst. unfold wait_valid.
  apply hoare_while with (Inv := fun _ w' => pull_state m n w');
    [|exact I|assumption].
  intros [] w1 _ H1.
  apply hoare_bind with (Mid := fun _ w' => pull_state m n w').
  - apply hoare_trigger; [exact I|].
    intros stat s E. split; [exact I|]. model_said E stat s.
    apply (pull_state_quiet n w1); [assumption|reflexivity..].
  - intros stat w2 _ H2. apply hoare_ret; [exact I|].
    destruct (Z.land stat 1 =? 0); [|assumption].
    apply hoare_ret; [exact I|assumption].
Qed.

(** One turn of the pull loop: pop word [n], compare, count. *)
Lemma pull_body_model n w :
  (n < frame)%nat -> pull_state m n w ->
  hoare (model_env m) anywhere w (pull_body (Z.of_nat n) (tally m n))
    (fun errors w' => errors = tally m (S n) /\ pull_state m (S n) w').
Proof.
  intros Hn Hst. unfold pull_body. pose proof frame_value as HN.
  apply hoare_bind with (Mid := fun _ w' => pull_state m n w');
    [apply wait_valid_model; assumption|].
  intros _ w1 _ (Hp & Hs & Hm & Hok & Hko).
  apply hoare_bind with
    (Mid := fun sample w' => sample = out_at m n /\ popped_state m n w').
  - apply hoare_trigger; [exact I|].
    intros sample s E. split; [exact I|]. model_said E sample s.
    rewrite Hp. split; [reflexivity|].
    unfold popped_state. cbn [hw log popped io_of].
    rewrite samples_app, Hs, seq_S, map_app, !printed_snoc_other
      by reflexivity.
    split; [reflexivity|]. split; [reflexivity|].
    repeat apply conj; assumption.
  - intros sample w2 _ (-> & Hp2 & Hs2 & Hm2 & Hok2 & Hko2).
    unfold tally. rewrite mismatches_S. fold (mismatch (out_at m) n).
    pose proof (mismatches_length (out_at m) n) as Hlen.
    destruct (mismatch (out_at m) n) eqn:Hmis.
    + apply hoare_bind with (Mid := fun _ w' => pull_state m (S n) w').
      * apply hoare_trigger; [exact I|].
        intros [] s E. split; [exact I|]. model_did E s.
        unfold pull_state. cbn [hw log io_of].
        rewrite samples_snoc_other, !printed_snoc by reflexivity.
        rewrite String.eqb_refl, mismatches_S, Hmis, map_app.
        change (String.eqb fmt_mismatch fmt_passed) with false.
        change (String.eqb fmt_mismatch fmt_failed) with false.
        rewrite ?app_nil_r, Hm2.
        repeat apply conj; try assumption. reflexivity.
      * intros _ w3 _ H3. apply hoare_ret; [exact I|]. split; [|assumption].
        rewrite List.length_app. cbn [List.length].
        unfold add32. rewrite u32_small by lia. lia.
    + apply hoare_ret; [exact I|]. split.
      * rewrite app_nil_r. reflexivity.
      * unfold pull_state. rewrite mismatches_S, Hmis, app_nil_r.
        repeat apply conj; assumption.
Qed.

Lemma pull_phase_model w :
  pull_state m 0 w ->
  hoare (model_env m) anywhere w pull_phase
    (fun errors w' => errors = tally m frame /\ pull_state m frame w').
Proof.
  intros Hst. unfold pull_phase. pose proof frame_value as HN.
  apply hoare_bind with
    (Mid := fun st w' => snd st = tally m frame /\ pull_state m frame w').
  - apply hoare_while with
      (Inv := fun st w' => exists n, st = (Z.of_nat n, tally m n) /\
                                     (n <= frame)%nat /\ pull_state m n w').
    + intros st w1 _ (n & -> & Hn & H1). apply hoare_ret; [exact I|].
      rewrite N_value. destruct (Z.ltb_spec (Z.of_nat n) 1024) as [Hlt|Hge].
      * apply hoare_bind with
          (Mid := fun errors w' => errors = tally m (S n) /\
                                   pull_state m (S n) w');
          [apply pull_body_model; [lia|assumption]|].
        intros errors w2 _ [-> H2]. apply hoare_ret; [exact I|].
        exists (S n). rewrite add32_succ by lia.
        split; [reflexivity|]. split; [lia|assumption].
      * replace frame with n by lia. split; [reflexivity|assumption].
    + exact I.
    + exists 0%nat. split; [reflexivity|]. split; [lia|assumption].
  - intros st w1 _ [He H1]. apply hoare_ret; [exact I|]. auto.
Qed.

Lemma push_phase_model w :
  pull_state m 0 w ->
  hoare (model_env m) anywhere w push_phase (fun _ w' => pull_state m 0 w').
Proof.
  intros Hst. unfold push_phase.
  apply hoare_bind with (Mid := fun _ w' => pull_state m 0 w').
  - apply hoare_while with (Inv := fun _ w' => pull_state m 0 w');
      [|exact I|assumption].
    intros i w1 _ H1. apply hoare_ret; [exact I|].
    destruct (i <? N); [|assumption].
    apply hoare_bind with (Mid := fun _ w' => pull_state m 0 w').
    + apply hoare_trigger; [exact I|].
      intros [] s E. split; [exact I|]. model_did E s.
      apply (pull_state_quiet 0 w1); [assumption|reflexivity..].
    + intros _ w2 _ H2. apply hoare_ret; [exact I|assumption].
  - intros _ w1 _ H1. apply hoare_ret; [exact I|assumption].
Qed.

Lemma report_model w :
  pull_state m frame w ->
  hoare (model_env m) anywhere w (report (tally m frame))
    (fun _ w' => verdict_state m w').
Proof.
  intros (Hp & Hs & Hm & Hok & Hko). unfold report.
  destruct (tally m frame =? 0) eqn:Hz;
    (apply hoare_trigger; [exact I|]);
    intros [] s E; (split; [exact I|]); model_did E s;
    unfold verdict_state; rewrite Hz;
    cbn [hw log io_of];
    rewrite samples_snoc_other, !printed_snoc by reflexivity;
    rewrite ?String.eqb_refl.
  - change (String.eqb fmt_passed fmt_mismatch) with false.
    change (String.eqb fmt_passed fmt_failed) with false.
    rewrite ?app_nil_r, Hok. repeat apply conj; try assumption. reflexivity.
  - change (String.eqb fmt_failed fmt_mismatch) with false.
    change (String.eqb fmt_failed fmt_passed) with false.
    rewrite ?app_nil_r, Hko. repeat apply conj; try assumption. reflexivity.
Qed.

Lemma boot_pull_state : pull_state m 0 (boot power_on).
Proof. repeat apply conj; reflexivity. Qed.

Lemma bitrev_selftest_model :
  hoare (model_env m) anywhere (boot power_on) bitrev_selftest
    (fun _ w' => verdict_state m w').
Proof.
  unfold bitrev_selftest.
  apply hoare_bind with (Mid := fun _ w' => pull_state m 0 w').
  - apply hoare_trigger; [exact I|].
    intros [] s E. split; [exact I|]. model_did E s.
    repeat apply conj; reflexivity.
  - intros _ w1 _ H1.
    apply hoare_bind with (Mid := fun _ w' => pull_state m 0 w');
      [apply push_phase_model; assumption|].
    intros _ w2 _ H2.
    apply hoare_bind with
      (Mid := fun errors w' => errors = tally m frame /\
                               pull_state m frame w');
      [apply pull_phase_model; assumption|].
    intros errors w3 _ [-> H3].
    apply hoare_bind with (Mid := fun _ w' => verdict_state m w');
      [apply report_model; assumption|].
    intros _ w4 _ (Hp & Hs & Hm & Hok & Hko).
    apply hoare_trigger; [exact I|].
    intros [] s E. split; [exact I|]. model_did E s.
    unfold verdict_state. cbn [hw log io_of].
    rewrite samples_snoc_other, !printed_snoc_other by reflexivity.
    repeat apply conj; assumption.
Qed.

End Model.

(** The push phase hands over a world in which nothing was popped or
    reported yet. *)
Lemma push_phase_hands_over (m : hw_model) (fuel : nat) :
  let o := run (model_env m) fuel push_phase (boot power_on) in
  returned o = Some tt -> pull_state m 0 (final o).
Proof.
  cbn zeta. intros E.
  exact (hoare_returned _ _ _ _ _ _ _
           (push_phase_model m _ (boot_pull_state m)) E).
Qed.

(** ** The verdict *)

(** Nothing in [main] can make it return anything but 0. *)
Lemma hoare_any {HW R} (respond : env HW) w (t : itree socE R) :
  hoare respond anywhere w t (fun _ _ => True).
Proof.
  intros fuel. split; [exact I|].
  destruct (snd (run respond fuel t w)) as [[r f]|]; exact I.
Qed.

Lemma main_exit_code {HW} (respond : env HW) rom w :
  hoare respond anywhere w (main rom) (fun r _ => r = 0).
Proof.
  unfold main.
  do 23 (apply hoare_bind with (Mid := fun _ _ => True);
         [apply hoare_any | intros ? ? _ _]).
  apply hoare_ret; [exact I|reflexivity].
Qed.

(** ** Termination of the busy-wait *)

Lemma converges_returned {HW R} (respond : env HW) w (t : itree socE R) Post :
  converges respond w t Post ->
  exists fuel r, returned (run respond fuel t w) = Some r /\
                 Post r (final (run respond fuel t w)).
Proof.
  intros [fuel H]. exists fuel. unfold returned, final.
  destruct (run respond fuel t w) as [w' [[r f]|]]; [|contradiction].
  exists r. split; [reflexivity|exact H].
Qed.

Section Termination.

Variable m : hw_model.

(** When the ready bit comes up at poll [p] for word [n], a driver that
    has polled [q <= p] times so far gets out of the busy-wait. *)
Lemma wait_valid_converges n p w :
  ready (stat_at m n p) = true ->
  popped (hw w) = n -> (polled (hw w) <= p)%nat ->
  converges (model_env m) w wait_valid (fun _ w' => popped (hw w') = n).
Proof.
  intros Hready Hn Hq. unfold wait_valid.
  apply converges_while with
    (Inv := fun _ w' => popped (hw w') = n /\ (polled (hw w') <= p)%nat)
    (variant := fun _ w' => (p - polled (hw w'))%nat); [|auto].
  intros [] w1 [Hn1 Hq1].
  apply converges_bind with
    (Mid := fun stat w' => stat = stat_at m n (polled (hw w1)) /\
                           at_word n (S (polled (hw w1))) w').
  - apply converges_trigger. intros stat s E. model_said E stat s.
    rewrite Hn1. repeat split.
  - intros stat w2 (-> & Hn2 & Hq2). apply converges_ret.
    destruct (Z.land _ 1 =? 0) eqn:Hbit; [|assumption].
    apply converges_ret.
    assert (polled (hw w1) <> p).
    { intros Heq. rewrite Heq in Hbit. unfold ready in Hready.
      rewrite Hbit in Hready. discriminate. }
    rewrite Hq2, Hn2. repeat split; lia.
Qed.

Hypothesis eventually_ready :
  forall i, (i < frame)%nat -> exists p, ready (stat_at m i p) = true.

Lemma pull_body_converges n errors w :
  (n < frame)%nat -> at_word n 0 w ->
  converges (model_env m) w (pull_body (Z.of_nat n) errors)
    (fun _ w' => at_word (S n) 0 w').
Proof.
  intros Hn [Hp Hq]. unfold pull_body.
  destruct (eventually_ready n Hn) as [p Hready].
  apply converges_bind with (Mid := fun _ w' => popped (hw w') = n);
    [apply (wait_valid_converges n p); [assumption|assumption|lia]|].
  intros _ w1 Hn1.
  apply converges_bind with (Mid := fun _ w' => at_word (S n) 0 w').
  - apply converges_trigger. intros sample s E. model_said E sample s.
    rewrite Hn1. split; reflexivity.
  - intros sample w2 Hat.
    destruct (negb (sample =? reverse_bits_k (Z.of_nat n))).
    + apply converges_bind with (Mid := fun _ w' => at_word (S n) 0 w').
      * apply converges_trigger. intros [] s E. model_did E s. exact Hat.
      * intros _ w3 Hat3. apply converges_ret. exact Hat3.
    + apply converges_ret. exact Hat.
Qed.

Lemma pull_phase_converges w :
  at_word 0 0 w -> converges (model_env m) w pull_phase (fun _ _ => True).
Proof.
  intros Hat. unfold pull_phase. pose proof frame_value as HN.
  apply converges_bind with (Mid := fun _ _ => True);
    [|intros; apply converges_ret; exact I].
  apply converges_while with
    (Inv := fun st w' => exists n, fst st = Z.of_nat n /\
                                   (n <= frame)%nat /\ at_word n 0 w')
    (variant := fun st _ => Z.to_nat (N - fst st)).
  - intros [i errors] w1 (n & Hi & Hn & Hat1). cbn [fst] in *. subst i.
    apply converges_ret. rewrite N_value.
    destruct (Z.ltb_spec (Z.of_nat n) 1024) as [Hlt|Hge]; [|exact I].
    apply converges_bind with (Mid := fun _ w' => at_word (S n) 0 w');
      [apply pull_body_converges; [lia|assumption]|].
    intros errors' w2 Hat2. apply converges_ret. cbn [fst].
    rewrite add32_succ by lia. split; [|lia].
    exists (S n). split; [reflexivity|]. split; [lia|assumption].
  - exists 0%nat. split; [reflexivity|]. split; [lia|assumption].
Qed.

Lemma push_phase_converges w :
  at_word 0 0 w -> converges (model_env m) w push_phase (fun _ w' => at_word 0 0 w').
Proof.
  intros Hat. unfold push_phase. pose proof frame_value as HN.
  apply converges_bind with (Mid := fun _ w' => at_word 0 0 w');
    [|intros; apply converges_ret; assumption].
  apply converges_while with
    (Inv := fun i w' => 0 <= i <= 1024 /\ at_word 0 0 w')
    (variant := fun i _ => Z.to_nat (N - i)).
  - intros i w1 [Hi Hat1]. apply converges_ret. rewrite N_value.
    destruct (Z.ltb_spec i 1024) as [Hlt|Hge]; [|assumption].
    apply converges_bind with (Mid := fun _ w' => at_word 0 0 w').
    + apply converges_trigger. intros [] s E. model_did E s. exact Hat1.
    + intros _ w2 Hat2. apply converges_ret.
      unfold add32. rewrite u32_small by lia. repeat split; try lia.
      * apply Hat2.
      * apply Hat2.
  - split; [lia|assumption].
Qed.

Lemma bitrev_selftest_converges :
  converges (model_env m) (boot power_on) bitrev_selftest (fun _ _ => True).
Proof.
  unfold bitrev_selftest.
  apply converges_bind with (Mid := fun _ w' => at_word 0 0 w').
  - apply converges_trigger. intros [] s E. model_did E s. split; reflexivity.
  - intros _ w1 Hat1.
    apply converges_bind with (Mid := fun _ w' => at_word 0 0 w');
      [apply push_phase_converges; assumption|].
    intros _ w2 Hat2.
    apply converges_bind with (Mid := fun _ _ => True);
      [apply pull_phase_converges; assumption|].
    intros errors w3 _.
    apply converges_bind with (Mid := fun _ _ => True).
    + unfold report. destruct (errors =? 0);
        apply converges_trigger; intros; exact I.
    + intros _ w4 _. apply converges_trigger. intros; exact I.
Qed.

End Termination.

Section Hang.

Variable m : hw_model.
Variable j : nat.
Hypothesis j_in_frame : (j < frame)%nat.
Hypothesis never_ready : forall p, ready (stat_at m j p) = false.

Lemma stuck_trigger {X} (e : socE X) n w :
  (forall x, is_out (io_of e x) = false) ->
  (n <= j)%nat -> popped (hw w) = n ->
  hoare (model_env m) (not_past j) w (ITree.trigger e)
    (fun _ w' => popped (hw w') = n).
Proof.
  intros He Hn Hp. apply hoare_trigger; [unfold not_past; lia|].
  intros x s E. unfold not_past. cbn [hw].
  assert (popped s = popped (hw w)).
  { destruct e; cbn in E; try (injection E as ? ?; subst; reflexivity).
    specialize (He 0). discriminate. }
  split; lia.
Qed.

(** Leaving the busy-wait for word [n] means that [n] is not [j]. *)
Lemma wait_valid_hang n w :
  (n <= j)%nat -> popped (hw w) = n ->
  hoare (model_env m) (not_past j) w wait_valid
    (fun _ w' => popped (hw w') = n /\ n <> j).
Proof.
  intros Hn Hp. unfold wait_valid.
  apply hoare_while with (Inv := fun _ w' => popped (hw w') = n);
    [|unfold not_past; lia|assumption].
  intros [] w1 Hs1 Hp1.
  apply hoare_bind with
    (Mid := fun stat w' => popped (hw w') = n /\
                           exists p, stat = stat_at m n p).
  - apply hoare_trigger; [assumption|].
    intros stat s E. model_said E stat s. unfold not_past. cbn [hw popped].
    rewrite Hp1. split; [lia|]. split; [reflexivity|]. eauto.
  - intros stat w2 Hs2 (Hp2 & p & ->). apply hoare_ret; [assumption|].
    destruct (Z.land _ 1 =? 0) eqn:Hbit.
    + apply hoare_ret; assumption.
    + split; [assumption|]. intros ->.
      pose proof (never_ready p) as Hnr. unfold ready in Hnr.
      rewrite Hbit in Hnr. discriminate.
Qed.

Lemma pull_phase_hang w :
  not_past j w -> popped (hw w) = 0%nat ->
  hoare (model_env m) (not_past j) w pull_phase (fun _ _ => False).
Proof.
  intros Hs Hp. unfold pull_phase. pose proof frame_value as HN.
  apply hoare_bind with (Mid := fun _ _ => False); [|contradiction].
  apply hoare_while with
    (Inv := fun st w' => exists n, fst st = Z.of_nat n /\ (n <= j)%nat /\
                                   popped (hw w') = n);
    [|assumption|exists 0%nat; split; [reflexivity|split; [lia|assumption]]].
  intros [i errors] w1 Hs1 (n & Hi & Hn & Hp1). cbn [fst] in Hi. subst i.
  apply hoare_ret; [assumption|]. rewrite N_value.
  destruct (Z.ltb_spec (Z.of_nat n) 1024) as [Hlt|Hge]; [|lia].
  apply hoare_bind with
    (Mid := fun _ w' => popped (hw w') = S n /\ n <> j).
  - unfold pull_body.
    apply hoare_bind with
      (Mid := fun _ w' => popped (hw w') = n /\ n <> j);
      [apply wait_valid_hang; assumption|].
    intros _ w2 Hs2 [Hp2 Hne].
    apply hoare_bind with
      (Mid := fun _ w' => popped (hw w') = S n /\ n <> j).
    + apply hoare_trigger; [assumption|].
      intros sample s E. model_said E sample s. unfold not_past. cbn [hw popped].
      rewrite Hp2. split; [lia|]. split; [reflexivity|assumption].
    + intros sample w3 Hs3 [Hp3 _].
      destruct (negb (sample =? reverse_bits_k (Z.of_nat n))).
      * apply hoare_bind with (Mid := fun _ w' => popped (hw w') = S n).
        -- apply stuck_trigger; [reflexivity|lia|assumption].
        -- intros _ w4 Hs4 Hp4. apply hoare_ret; [assumption|].
           split; assumption.
      * apply hoare_ret; [assumption|]. split; assumption.
  - intros errors' w2 Hs2 [Hp2 Hne]. apply hoare_ret; [assumption|].
    exists (S n). cbn [fst]. rewrite add32_succ by lia.
    split; [reflexivity|]. split; [lia|assumption].
Qed.

Lemma push_phase_hang w :
  not_past j w -> popped (hw w) = 0%nat ->
  hoare (model_env m) (not_past j) w push_phase
    (fun _ w' => popped (hw w') = 0%nat).
Proof.
  intros Hs Hp. unfold push_phase.
  apply hoare_bind with (Mid := fun _ w' => popped (hw w') = 0%nat).
  - apply hoare_while with (Inv := fun _ w' => popped (hw w') = 0%nat);
      [|assumption..].
    intros i w1 Hs1 Hp1. apply hoare_ret; [assumption|].
    destruct (i <? N); [|assumption].
    apply hoare_bind with (Mid := fun _ w' => popped (hw w') = 0%nat);
      [apply stuck_trigger; [reflexivity|lia|assumption]|].
    intros _ w2 Hs2 Hp2. apply hoare_ret; assumption.
  - intros _ w1 Hs1 Hp1. apply hoare_ret; assumption.
Qed.

Lemma bitrev_selftest_hang :
  hoare (model_env m) (not_past j) (boot power_on) bitrev_selftest
    (fun _ _ => False).
Proof.
  unfold bitrev_selftest.
  apply hoare_bind with (Mid := fun _ w' => popped (hw w') = 0%nat).
  - apply stuck_trigger; [reflexivity|lia|reflexivity].
  - intros _ w1 Hs1 Hp1.
    apply hoare_bind with (Mid := fun _ w' => popped (hw w') = 0%nat);
      [apply push_phase_hang; assumption|].
    intros _ w2 Hs2 Hp2.
    apply hoare_bind with (Mid := fun _ _ => False);
      [apply pull_phase_hang; assumption|contradiction].
Qed.

End Hang.

(** ** C6 *)

(** C6: for any hardware model, if for each of the [N] words some poll
    of [STAT] finds bit 0 set, then [bitrev_selftest] returns, given
    enough fuel; and if for one word [j] below [N] no poll ever finds
    bit 0 set, then [bitrev_selftest] does not return whatever the fuel
    -- there is no way out of the busy-wait -- and the hardware never
    gets to hand out more than [j] words. *)
Theorem selftest_busy_wait (m : hw_model) :
  ((forall i, (i < frame)%nat -> exists p, Z.land (stat_at m i p) 1 <> 0) ->
   exists fuel,
     returned (run (model_env m) fuel bitrev_selftest (boot power_on))
     = Some tt) /\
  (forall j, (j < frame)%nat ->
     (forall p, Z.land (stat_at m j p) 1 = 0) ->
     forall fuel,
       returned (run (model_env m) fuel bitrev_selftest (boot power_on))
       = None /\
       (popped (hw (final (run (model_env m) fuel bitrev_selftest
                             (boot power_on)))) <= j)%nat).
Proof.
  split.
  - intros Hready.
    assert (Hr : forall i, (i < frame)%nat ->
                           exists p, ready (stat_at m i p) = true).
    { intros i Hi. destruct (Hready i Hi) as [p Hp].
      exists p. apply ready_iff, Hp. }
    destruct (converges_returned _ _ _ _ (bitrev_selftest_converges m Hr))
      as (fuel & [] & E & _).
    exists fuel. exact E.
  - intros j Hj Hnever fuel.
    assert (Hn : forall p, ready (stat_at m j p) = false).
    { intros p. unfold ready. rewrite Hnever. reflexivity. }
    pose proof (bitrev_selftest_hang m j Hj Hn fuel) as [Hsafe Hpost].
    split; [|exact Hsafe].
    apply returned_none.
    destruct (snd (run (model_env m) fuel bitrev_selftest (boot power_on)))
      as [[r f]|]; [contradiction|reflexivity].
Qed.

Lemma selftest_busy_wait_witness :
  (exists fuel,
     returned (run (model_env ideal_hw) fuel bitrev_selftest (boot power_on))
     = Some tt) /\
  (forall fuel,
     returned (run (model_env (stuck_hw 3)) fuel bitrev_selftest
                 (boot power_on)) = None /\
     (popped (hw (final (run (model_env (stuck_hw 3)) fuel bitrev_selftest
                           (boot power_on)))) <= 3)%nat).
Proof.
  split.
  - apply (proj1 (selftest_busy_wait ideal_hw)).
    intros i _. exists 0%nat. cbn. lia.
  - apply (proj2 (selftest_busy_wait (stuck_hw 3)) 3%nat).
    + pose proof frame_value. lia.
    + intros p. reflexivity.
Defined.

(** The stuck bench in figures: with plenty of fuel the driver is still
    waiting for word 3, having popped words 0 to 2. *)
Example stuck_hw_run :
  let o := run (model_env (stuck_hw 3)) plenty bitrev_selftest
             (boot power_on) in
  returned o = None /\ popped (hw (final o)) = 3%nat /\
  samples (log (final o)) = [0; 512; 256].
Proof. vm_compute. repeat split. Qed.

(** * Further properties *)

(** ** The reference model as a permutation of bit positions *)

(** X1: [reverse_bits_k] moves bits and does nothing else, so it
    commutes with the bitwise operations: the reverse of [x ^ y],
    [x | y] and [x & y] is the same operation on the reverses. *)
Theorem reverse_bits_k_bitwise (x y : Z) :
  reverse_bits_k (Z.lxor x y) = Z.lxor (reverse_bits_k x) (reverse_bits_k y) /\
  reverse_bits_k (Z.lor x y) = Z.lor (reverse_bits_k x) (reverse_bits_k y) /\
  reverse_bits_k (Z.land x y) = Z.land (reverse_bits_k x) (reverse_bits_k y).
Proof.
  repeat split; apply Z.bits_inj'; intros j Hj;
    rewrite ?Z.lxor_spec, ?Z.lor_spec, ?Z.land_spec;
    repeat match goal with
           | |- context [Z.testbit (reverse_bits_k ?a) j] =>
               change (Z.testbit (reverse_bits_k a) j)
                 with (bit (reverse_bits_k a) j);
               rewrite (reverse_bits_k_bit a j Hj)
           end;
    unfold bit; rewrite ?Z.lxor_spec, ?Z.lor_spec, ?Z.land_spec;
    destruct (j <? 10), (Z.testbit x (9 - j)), (Z.testbit y (9 - j));
    reflexivity.
Qed.

(** X2: a single bit at position [j < K] goes to position [K-1-j]:
    [reverse_bits_k (2^j) = 2^(K-1-j)]; a single bit at a position from
    [K] up is dropped. *)
Theorem reverse_bits_k_single_bit (j : Z) :
  0 <= j ->
  reverse_bits_k (2 ^ j) = if j <? K then 2 ^ (K - 1 - j) else 0.
Proof.
  intros Hj. rewrite K_value. apply Z.bits_inj'. intros i Hi.
  fold (bit (reverse_bits_k (2 ^ j)) i). rewrite reverse_bits_k_bit by assumption.
  unfold bit.
  destruct (Z.ltb_spec i 10) as [Hi10|Hi10]; cbn [andb].
  - destruct (Z.ltb_spec j 10) as [Hj10|Hj10].
    + rewrite !Z.pow2_bits_eqb by lia.
      destruct (Z.eqb_spec j (9 - i)), (Z.eqb_spec (10 - 1 - j) i);
        try reflexivity; lia.
    + rewrite Z.pow2_bits_eqb, Z.bits_0 by lia.
      destruct (Z.eqb_spec j (9 - i)); [lia|reflexivity].
  - destruct (Z.ltb_spec j 10) as [Hj10|Hj10].
    + rewrite Z.pow2_bits_eqb by lia.
      destruct (Z.eqb_spec (10 - 1 - j) i); [lia|reflexivity].
    + rewrite Z.bits_0. reflexivity.
Qed.

Lemma reverse_bits_k_single_bit_witness :
  reverse_bits_k (2 ^ 2) = if 2 <? K then 2 ^ (K - 1 - 2) else 0.
Proof. apply (reverse_bits_k_single_bit 2). lia. Defined.

(** X3: the permutation sends the odd indices to the upper half of the
    frame and the even ones to the lower half: [reverse_bits_k x] is at
    least [N / 2] exactly when [x] is odd. *)
Theorem reverse_bits_k_odd_upper_half (x : Z) :
  (N / 2 <=? reverse_bits_k x) = Z.odd x.
Proof.
  pose proof (reverse_bits_k_range x) as Hr. rewrite K_value in Hr.
  change (N / 2) with 512.
  assert (Hb : Z.testbit (reverse_bits_k x) 9 = Z.odd x).
  { fold (bit (reverse_bits_k x) 9). rewrite reverse_bits_k_bit by lia.
    cbn. unfold bit. apply Z.bit0_odd. }
  rewrite <- Hb. rewrite Z.testbit_eqb by lia. change (2 ^ 9) with 512.
  destruct (Z.leb_spec 512 (reverse_bits_k x)) as [Hge|Hlt].
  - replace (reverse_bits_k x / 512) with 1; [reflexivity|].
    apply Z.div_unique with (reverse_bits_k x - 512); lia.
  - rewrite Z.div_small by lia. reflexivity.
Qed.

(** ** The cost of [isqrt] *)

Section Cost.

Context {HW : Type} (respond : env HW).

Lemma finishes_ret {R} w (r : R) (Post : R -> world HW -> Prop) :
  Post r w -> finishes_within respond 0 w (Ret r) Post.
Proof.
  intros H. exists 0%nat. split; [lia|]. rewrite run_ret. auto.
Qed.

Lemma finishes_weaken {R} k k' w (t : itree socE R) Post :
  (k <= k')%nat -> finishes_within respond k w t Post ->
  finishes_within respond k' w t Post.
Proof. intros Hk (c & Hc & H). exists c. split; [lia|exact H]. Qed.

Lemma finishes_bind {R T} k1 k2 w (t : itree socE R) (k : R -> itree socE T)
  (Mid : R -> world HW -> Prop) (Post : T -> world HW -> Prop) :
  finishes_within respond k1 w t Mid ->
  (forall r w', Mid r w' -> finishes_within respond k2 w' (k r) Post) ->
  finishes_within respond (k1 + k2) w (ITree.bind t k) Post.
Proof.
  intros (c1 & Hc1 & H1) Hk.
  destruct (run respond c1 t w) as [w1 [[r f1]|]] eqn:E1; [|contradiction].
  destruct H1 as [-> Hm].
  destruct (Hk r w1 Hm) as (c2 & Hc2 & H2).
  exists (c1 + c2)%nat. split; [lia|].
  rewrite run_bind, (run_more_fuel respond c2 _ _ _ _ _ _ E1). exact H2.
Qed.

(** A loop without side effects takes one step per turn. *)
Lemma finishes_while_pure {St} (Inv : St -> Prop) (variant : St -> nat)
  (c : St -> bool) (f : St -> St) :
  (forall s, Inv s -> c s = true ->
     Inv (f s) /\ (variant (f s) < variant s)%nat) ->
  forall s w, Inv s ->
    finishes_within respond (variant s) w
      (while_ (fun s => Ret (c s)) (fun s => Ret (f s)) s)
      (fun s' w' => Inv s' /\ c s' = false /\ w' = w).
Proof.
  intros Hstep s w. remember (variant s) as n eqn:Hn. revert s Hn.
  induction n as [n IH] using lt_wf_ind. intros s Hn Hinv.
  destruct (c s) eqn:Hc.
  - destruct (Hstep s Hinv Hc) as [Hinv' Hlt].
    destruct (IH (variant (f s)) ltac:(lia) (f s) eq_refl Hinv')
      as (c' & Hc' & H').
    exists (S c'). split; [lia|].
    rewrite run_while, run_ret, Hc, run_ret. exact H'.
  - exists 0%nat. split; [lia|].
    rewrite run_while, run_ret, Hc. auto.
Qed.

End Cost.

Lemma pow4_as_pow2 k : 0 <= k -> 4 ^ k = 2 ^ (2 * k).
Proof. intros Hk. rewrite Z.pow_mul_r by lia. reflexivity. Qed.

Lemma quarter_steps_pow4 k :
  0 <= k -> quarter_steps (4 ^ k) = S (Z.to_nat k).
Proof.
  intros Hk. unfold quarter_steps.
  assert (0 < 4 ^ k) by (apply Z.pow_pos_nonneg; lia).
  destruct (Z.leb_spec (4 ^ k) 0); [lia|].
  rewrite pow4_as_pow2, Z.log2_pow2 by lia.
  replace (2 * k / 2) with k; [reflexivity|].
  symmetry. rewrite Z.mul_comm. apply Z.div_mul. lia.
Qed.

(** Shifting a power of four right by two leaves fewer turns. *)
Lemma quarter_steps_shr k :
  0 <= k -> (quarter_steps (shr32 (4 ^ k) 2) < quarter_steps (4 ^ k))%nat.
Proof.
  intros Hk. rewrite shr32_2, (quarter_steps_pow4 k Hk).
  destruct (Z.eq_dec k 0) as [->|Hk0]; [cbn; lia|].
  rewrite (pow_pred 4 k) by lia.
  replace (4 * 4 ^ (k - 1) / 4) with (4 ^ (k - 1))
    by (symmetry; rewrite Z.mul_comm; apply Z.div_mul; lia).
  rewrite quarter_steps_pow4 by lia. lia.
Qed.

Lemma align_inv_steps n b : align_inv n b -> (quarter_steps b <= 16)%nat.
Proof.
  intros [[-> _]|(k & Hk & -> & _)]; [cbn; lia|].
  rewrite quarter_steps_pow4 by lia. lia.
Qed.

Lemma align_step_count n b :
  0 <= n -> align_inv n b -> (b >? n) = true ->
  align_inv n (shr32 b 2) /\
  (quarter_steps (shr32 b 2) < quarter_steps b)%nat.
Proof.
  intros Hn Ha Hgt. split; [apply (align_step n b Hn Ha Hgt)|].
  destruct Ha as [[-> ->]|(k & Hk & -> & _)]; [discriminate|].
  apply quarter_steps_shr. lia.
Qed.

Lemma root_step_count n s :
  root_inv n s -> negb (v_bit s =? 0) = true ->
  root_inv n (isqrt_body s) /\
  (quarter_steps (v_bit (isqrt_body s)) < quarter_steps (v_bit s))%nat.
Proof.
  intros Hr Hbit. split; [apply (root_step n s Hr Hbit)|].
  destruct Hr as (R & _ & _ & _ & Hcases).
  apply negb_true_iff, Z.eqb_neq in Hbit.
  destruct Hcases as [(H0 & _)|(k & b & Hk & Hb & Hbb & _)]; [contradiction|].
  replace (v_bit (isqrt_body s)) with (shr32 (v_bit s) 2)
    by (destruct s; unfold isqrt_body; cbn;
        destruct (_ >=? _); reflexivity).
  assert (E : v_bit s = 4 ^ k).
  { rewrite Hbb, Hb. change 4 with (2 * 2). rewrite Z.pow_mul_l. reflexivity. }
  rewrite E. apply quarter_steps_shr. assumption.
Qed.

Lemma isqrt_finishes {HW} (respond : env HW) (w : world HW) n :
  0 <= n < 2 ^ 32 ->
  finishes_within respond 32 w (isqrt n)
    (fun r w' => w' = w /\ r = Z.sqrt n).
Proof.
  intros Hn. unfold isqrt. change 32%nat with (16 + 16)%nat.
  eapply finishes_bind.
  - apply finishes_weaken with (k := quarter_steps (shl32 1 30));
      [cbn; lia|].
    apply (finishes_while_pure respond (align_inv n) quarter_steps).
    + intros b. apply align_step_count. lia.
    + right. exists 15. change (shl32 1 30) with 1073741824.
      repeat split; lia.
  - intros b w1 (Ha & Hle & ->). cbn beta.
    change 16%nat with (16 + 0)%nat.
    eapply finishes_bind.
    + apply finishes_weaken with (k := quarter_steps b);
        [apply (align_inv_steps n b Ha)|].
      apply (finishes_while_pure respond (root_inv n)
               (fun s => quarter_steps (v_bit s))
               (fun s => negb (v_bit s =? 0)) isqrt_body
               (root_step_count n) (mk_isqrt_vars n 0 b) w).
      apply root_inv_start; [assumption|assumption|lia].
    + intros s w2 ((R & HR & HRn & _ & Hcases) & Hbit & ->). cbn beta.
      apply finishes_ret. split; [reflexivity|].
      apply negb_false_iff, Z.eqb_eq in Hbit.
      destruct Hcases as [(_ & -> & Hlt)|(k & b' & Hk & Hb & Hbb & _)].
      * symmetry. apply Z.sqrt_unique. lia.
      * assert (0 < b') by (subst b'; apply Z.pow_pos_nonneg; lia). nia.
Qed.

(** With fuel for 32 loop turns [isqrt] has returned. *)
Lemma isqrt_run32 {HW} (respond : env HW) (w : world HW) n :
  0 <= n < 2 ^ 32 ->
  returned (run respond 32 (isqrt n) w) = Some (Z.sqrt n) /\
  final (run respond 32 (isqrt n) w) = w.
Proof.
  intros Hn. destruct (isqrt_finishes respond w n Hn) as (c & Hc & H).
  destruct (run respond c (isqrt n) w) as [w' [[r rest]|]] eqn:E;
    [|contradiction].
  destruct H as (-> & -> & ->).
  apply (run_more_fuel respond (32 - c)) in E.
  replace (c + (32 - c))%nat with 32%nat in E by lia.
  unfold returned, final. rewrite E. split; reflexivity.
Qed.

(** X4: [isqrt] costs at most 32 loop turns whatever its 32-bit input:
    run with fuel 32 against any environment it has returned the floor
    of the square root, leaving the environment as it was. *)
Theorem isqrt_at_most_32_turns (n : Z) :
  0 <= n < 2 ^ 32 ->
  forall HW (respond : env HW) (w : world HW),
    returned (run respond 32 (isqrt n) w) = Some (Z.sqrt n) /\
    final (run respond 32 (isqrt n) w) = w.
Proof. intros Hn HW respond w. apply isqrt_run32. exact Hn. Qed.

Lemma isqrt_at_most_32_turns_witness :
  returned (run (model_env ideal_hw) 32 (isqrt 4294967295) (boot power_on))
  = Some (Z.sqrt 4294967295) /\
  final (run (model_env ideal_hw) 32 (isqrt 4294967295) (boot power_on))
  = boot power_on.
Proof. apply (isqrt_at_most_32_turns 4294967295). lia. Defined.

(** X5: [isqrt] undoes squaring, and knows nothing finer: for every
    [r] below [2^16] and every [d] from 0 to [2 * r], [isqrt (r * r + d)]
    returns [r]. *)
Theorem isqrt_of_square (r d : Z) :
  0 <= r < 2 ^ 16 -> 0 <= d <= 2 * r ->
  forall HW (respond : env HW) (w : world HW),
    returned (run respond 32 (isqrt (r * r + d)) w) = Some r.
Proof.
  intros Hr Hd HW respond w.
  assert (Hn : 0 <= r * r + d < 2 ^ 32) by nia.
  destruct (isqrt_run32 respond w _ Hn) as [E _]. rewrite E. f_equal.
  apply Z.sqrt_unique. nia.
Qed.

Lemma isqrt_of_square_witness :
  returned (run (model_env ideal_hw) 32 (isqrt (65535 * 65535 + 131070))
              (boot power_on)) = Some 65535.
Proof.
  apply (isqrt_of_square 65535 131070); lia.
Defined.

(** X6: the result of [isqrt] fits in 16 bits, and a larger input
    never gives a smaller root. *)
Theorem isqrt_monotone_16bit (n n' : Z) :
  0 <= n <= n' -> n' < 2 ^ 32 ->
  forall HW (respond : env HW) (w : world HW),
  exists r r',
    returned (run respond 32 (isqrt n) w) = Some r /\
    returned (run respond 32 (isqrt n') w) = Some r' /\
    0 <= r <= r' /\ r' < 2 ^ 16.
Proof.
  intros Hn Hn' HW respond w.
  destruct (isqrt_run32 respond w n ltac:(lia)) as [E _].
  destruct (isqrt_run32 respond w n' ltac:(lia)) as [E' _].
  exists (Z.sqrt n), (Z.sqrt n'). split; [exact E|]. split; [exact E'|].
  split; [split; [apply Z.sqrt_nonneg|apply Z.sqrt_le_mono; lia]|].
  apply Z.sqrt_lt_square; lia.
Qed.

Lemma isqrt_monotone_16bit_witness :
  exists r r',
    returned (run (model_env ideal_hw) 32 (isqrt 99) (boot power_on))
    = Some r /\
    returned (run (model_env ideal_hw) 32 (isqrt 100) (boot power_on))
    = Some r' /\
    0 <= r <= r' /\ r' < 2 ^ 16.
Proof. apply (isqrt_monotone_16bit 99 100); lia. Defined.

(** ** The phases of the driver, one by one *)

Section PushPhase.

Context {HW : Type} (respond : env HW).

Lemma push_phase_converges_any w :
  converges respond w push_phase
    (fun _ w' => log w' = log w ++ map IoWriteIN (upto frame)).
Proof.
  unfold push_phase. pose proof frame_value as HN.
  apply converges_bind with
    (Mid := fun _ w' => log w' = log w ++ map IoWriteIN (upto frame));
    [|intros; apply converges_ret; assumption].
  apply converges_while with
    (Inv := fun i w' => exists n, i = Z.of_nat n /\ (n <= frame)%nat /\
                                  log w' = log w ++ map IoWriteIN (upto n))
    (variant := fun i _ => Z.to_nat (N - i)).
  - intros i w1 (n & -> & Hn & Hlog). apply converges_ret. rewrite N_value.
    destruct (Z.ltb_spec (Z.of_nat n) 1024) as [Hlt|Hge].
    + apply converges_bind with
        (Mid := fun _ w' => log w' = log w ++ map IoWriteIN (upto (S n))).
      * apply converges_trigger. intros [] s _. cbn [log io_of].
        rewrite Hlog, upto_S, map_app, app_assoc. reflexivity.
      * intros _ w2 Hlog2. apply converges_ret.
        rewrite add32_succ by lia. split; [|lia].
        exists (S n). split; [reflexivity|]. split; [lia|assumption].
    + replace frame with n by lia. assumption.
  - exists 0%nat. split; [reflexivity|]. split; [lia|].
    cbn. rewrite app_nil_r. reflexivity.
Qed.

End PushPhase.

(** X7: the push phase needs nothing from the hardware: against any
    environment and from any world it returns, having done nothing but
    write [0, 1, ..., N-1] to [IN]. *)
Theorem push_phase_writes_frame {HW} (respond : env HW) (w : world HW) :
  exists fuel,
    returned (run respond fuel push_phase w) = Some tt /\
    log (final (run respond fuel push_phase w)) =
      log w ++ map IoWriteIN (upto frame).
Proof.
  destruct (converges_returned _ _ _ _ (push_phase_converges_any respond w))
    as (fuel & [] & E & H).
  exists fuel. split; assumption.
Qed.

(** ** The busy-wait, poll by poll *)

Lemma seq_snoc_range a b :
  (a <= b)%nat -> seq a (S b - a) = seq a (b - a) ++ [b].
Proof.
  intros H. replace (S b - a)%nat with (S (b - a)) by lia.
  rewrite seq_S. f_equal. f_equal. lia.
Qed.

Lemma wait_valid_polls m n p w :
  popped (hw w) = n -> (polled (hw w) <= p)%nat ->
  ready (stat_at m n p) = true ->
  (forall q, (polled (hw w) <= q < p)%nat -> ready (stat_at m n q) = false) ->
  converges (model_env m) w wait_valid
    (fun _ w' =>
       hw w' = mk_hw_state n (S p) /\
       log w' = log w ++ map (fun q => IoReadSTAT (stat_at m n q))
                             (seq (polled (hw w)) (S p - polled (hw w)))).
Proof.
  intros Hn Hq Hready Hbefore. unfold wait_valid.
  set (q0 := polled (hw w)) in *.
  apply converges_while with
    (Inv := fun _ w' =>
              popped (hw w') = n /\ (q0 <= polled (hw w') <= p)%nat /\
              log w' = log w ++ map (fun q => IoReadSTAT (stat_at m n q))
                                    (seq q0 (polled (hw w') - q0)))
    (variant := fun _ w' => (p - polled (hw w'))%nat).
  - intros [] w1 (Hn1 & Hq1 & Hlog1).
    apply converges_bind with
      (Mid := fun stat w' =>
                stat = stat_at m n (polled (hw w1)) /\
                hw w' = mk_hw_state n (S (polled (hw w1))) /\
                log w' = log w ++ map (fun q => IoReadSTAT (stat_at m n q))
                                      (seq q0 (S (polled (hw w1)) - q0))).
    + apply converges_trigger. intros stat s E. model_said E stat s.
      cbn [hw log io_of]. rewrite Hn1. split; [reflexivity|].
      split; [reflexivity|].
      rewrite Hlog1, seq_snoc_range, map_app, app_assoc by lia. reflexivity.
    + intros stat w2 (-> & Hhw2 & Hlog2). apply converges_ret.
      destruct (Z.land _ 1 =? 0) eqn:Hbit.
      * apply converges_ret.
        assert (polled (hw w1) <> p).
        { intros Heq. rewrite Heq in Hbit. unfold ready in Hready.
          rewrite Hbit in Hready. discriminate. }
        rewrite Hhw2. cbn [popped polled].
        split; [|lia]. split; [reflexivity|]. split; [lia|assumption].
      * assert (polled (hw w1) = p).
        { destruct (Nat.eq_dec (polled (hw w1)) p) as [|Hne]; [assumption|].
          specialize (Hbefore (polled (hw w1)) ltac:(lia)).
          unfold ready in Hbefore. rewrite Hbit in Hbefore. discriminate. }
        rewrite <- H. split; assumption.
  - split; [assumption|]. split; [lia|].
    replace (polled (hw w) - q0)%nat with 0%nat by (unfold q0; lia).
    cbn. rewrite app_nil_r. reflexivity.
Qed.

(** X8: the busy-wait reads [STAT] until the first value with bit 0
    set, and does nothing else: when the hardware shows the ready bit
    for word [n] at poll [p] and not before, [wait_valid] returns after
    exactly the polls up to [p], each logged with the value the hardware
    gave, and no word is popped. *)
Theorem wait_valid_polls_until_ready (m : hw_model) (n p : nat)
  (w : world hw_state) :
  popped (hw w) = n -> (polled (hw w) <= p)%nat ->
  Z.land (stat_at m n p) 1 <> 0 ->
  (forall q, (polled (hw w) <= q < p)%nat -> Z.land (stat_at m n q) 1 = 0) ->
  exists fuel,
    returned (run (model_env m) fuel wait_valid w) = Some tt /\
    hw (final (run (model_env m) fuel wait_valid w)) = mk_hw_state n (S p) /\
    log (final (run (model_env m) fuel wait_valid w)) =
      log w ++ map (fun q => IoReadSTAT (stat_at m n q))
                   (seq (polled (hw w)) (S p - polled (hw w))).
Proof.
  intros Hn Hq Hready Hbefore.
  assert (Hr : ready (stat_at m n p) = true) by (apply ready_iff, Hready).
  assert (Hb : forall q, (polled (hw w) <= q < p)%nat ->
                         ready (stat_at m n q) = false).
  { intros q Hq'. unfold ready. rewrite (Hbefore q Hq'). reflexivity. }
  destruct (converges_returned _ _ _ _ (wait_valid_polls m n p w Hn Hq Hr Hb))
    as (fuel & [] & E & Hhw & Hlog).
  exists fuel. split; [exact E|]. split; assumption.
Qed.

Lemma wait_valid_polls_until_ready_witness :
  exists fuel,
    returned (run (model_env (stuck_hw 7)) fuel wait_valid (boot power_on))
    = Some tt /\
    hw (final (run (model_env (stuck_hw 7)) fuel wait_valid (boot power_on)))
    = mk_hw_state 0 (S 2) /\
    log (final (run (model_env (stuck_hw 7)) fuel wait_valid
                  (boot power_on))) =
      log (boot power_on) ++
      map (fun q => IoReadSTAT (stat_at (stuck_hw 7) 0 q))
          (seq (polled (hw (boot power_on)))
               (S 2 - polled (hw (boot power_on)))).
Proof.
  apply (wait_valid_polls_until_ready (stuck_hw 7) 0 2 (boot power_on)).
  - reflexivity.
  - cbn. lia.
  - cbn. lia.
  - intros q Hq. cbn in Hq.
    assert (Hc : q = 0%nat \/ q = 1%nat) by lia.
    destruct Hc as [->| ->]; reflexivity.
Defined.

(** ** Hardware that is right *)

(** X9: the end-to-end scenario.  When the hardware model returns
    [reverse_bits_k i] for every index [i] below [N] and shows the ready
    bit for each word at some poll, the self-test runs to its end,
    prints no diagnostic and no failure message, and prints the success
    message for a frame of [N] points. *)
Theorem selftest_passes_on_correct_hardware (m : hw_model) :
  (forall i, (i < frame)%nat -> out_at m i = reverse_bits_k (Z.of_nat i)) ->
  (forall i, (i < frame)%nat -> exists p, Z.land (stat_at m i p) 1 <> 0) ->
  exists fuel,
    returned (run (model_env m) fuel bitrev_selftest (boot power_on))
    = Some tt /\
    printed fmt_mismatch
      (log (final (run (model_env m) fuel bitrev_selftest (boot power_on))))
    = [] /\
    printed fmt_passed
      (log (final (run (model_env m) fuel bitrev_selftest (boot power_on))))
    = [[N]] /\
    printed fmt_failed
      (log (final (run (model_env m) fuel bitrev_selftest (boot power_on))))
    = [].
Proof.
  intros Hright Hready.
  assert (Hr : forall i, (i < frame)%nat ->
                         exists p, ready (stat_at m i p) = true).
  { intros i Hi. destruct (Hready i Hi) as [p Hp].
    exists p. apply ready_iff, Hp. }
  assert (Hnone : mismatches (out_at m) frame = []).
  { apply mismatches_none. intros i Hi. unfold mismatch.
    apply negb_false_iff, Z.eqb_eq. auto. }
  destruct (converges_returned _ _ _ _ (bitrev_selftest_converges m Hr))
    as (fuel & [] & E & _).
  exists fuel. split; [exact E|].
  pose proof (hoare_returned _ _ _ _ _ _ _ (bitrev_selftest_model m) E)
    as (_ & _ & Hm & Hok & Hko).
  unfold tally in Hok, Hko. rewrite Hnone in Hm, Hok, Hko.
  split; [exact Hm|]. split; [exact Hok|exact Hko].
Qed.

Lemma selftest_passes_on_correct_hardware_witness :
  exists fuel,
    returned (run (model_env ideal_hw) fuel bitrev_selftest (boot power_on))
    = Some tt /\
    printed fmt_mismatch
      (log (final (run (model_env ideal_hw) fuel bitrev_selftest
                     (boot power_on))))
    = [] /\
    printed fmt_passed
      (log (final (run (model_env ideal_hw) fuel bitrev_selftest
                     (boot power_on))))
    = [[N]] /\
    printed fmt_failed
      (log (final (run (model_env ideal_hw) fuel bitrev_selftest
                     (boot power_on))))
    = [].
Proof.
  apply (selftest_passes_on_correct_hardware ideal_hw).
  - intros i _. reflexivity.
  - intros i _. exists 0%nat. cbn. lia.
Defined.

(** ** The verdict against any environment *)

Lemma mismatches_ext out out' n :
  (forall i, (i < n)%nat -> out i = out' i) ->
  mismatches out n = mismatches out' n.
Proof.
  induction n as [|n IH]; intros H; [reflexivity|].
  rewrite !mismatches_S, IH by (intros; apply H; lia).
  unfold mismatch. rewrite H by lia. reflexivity.
Qed.

Lemma mismatches_below out n i : In i (mismatches out n) -> (i < n)%nat.
Proof.
  unfold mismatches. intros H. apply filter_In in H.
  destruct H as [H _]. apply in_seq in H. lia.
Qed.

(** The diagnostics of the first [n] words depend on their samples
    only. *)
Lemma diagnostics_ext out out' n :
  (forall i, (i < n)%nat -> out i = out' i) ->
  map (diagnostic out) (mismatches out n) =
  map (diagnostic out') (mismatches out' n).
Proof.
  intros H. rewrite (mismatches_ext out out' n H).
  apply map_ext_in. intros i Hi. apply mismatches_below in Hi.
  unfold diagnostic. rewrite H by assumption. reflexivity.
Qed.

Lemma sample_at_snoc_other l e i :
  is_out e = false -> sample_at (l ++ [e]) i = sample_at l i.
Proof. intros H. unfold sample_at. rewrite samples_snoc_other; auto. Qed.

Lemma sample_at_snoc_old l v i :
  (i < List.length (samples l))%nat ->
  sample_at (l ++ [IoReadOUT v]) i = sample_at l i.
Proof.
  intros H. unfold sample_at. rewrite samples_app. apply app_nth1. exact H.
Qed.

Lemma sample_at_snoc_new l v :
  sample_at (l ++ [IoReadOUT v]) (List.length (samples l)) = v.
Proof.
  unfold sample_at. rewrite samples_app, app_nth2 by lia.
  rewrite Nat.sub_diag. reflexivity.
Qed.

Lemma complaints_bound {HW} n (w : world HW) :
  printed fmt_mismatch (log w) =
    map (diagnostic (sample_at (log w))) (mismatches (sample_at (log w)) n) ->
  0 <= complaints (log w) <= Z.of_nat n.
Proof.
  intros H. unfold complaints. rewrite H, List.length_map.
  pose proof (mismatches_length (sample_at (log w)) n). lia.
Qed.

Section AnyEnv.

Context {HW : Type} (respond : env HW).

(** Events that neither pop nor print leave the account alone. *)
Lemma checked_quiet n (w : world HW) (s : HW) e :
  checked n w -> is_out e = false -> is_printf e = false ->
  checked n (mk_world s (log w ++ [e])).
Proof.
  intros (Hl & Hm & Hok & Hko) Ho Hp. unfold checked. cbn [log].
  rewrite samples_snoc_other, !printed_snoc_other by assumption.
  split; [assumption|]. split; [|split; assumption].
  rewrite Hm. apply diagnostics_ext. intros i _.
  symmetry. apply sample_at_snoc_other. assumption.
Qed.

Lemma quiet_trigger {X} (e : socE X) n w :
  (forall x, is_out (io_of e x) = false) ->
  (forall x, is_printf (io_of e x) = false) ->
  checked n w ->
  hoare respond anywhere w (ITree.trigger e) (fun _ w' => checked n w').
Proof.
  intros Ho Hp Hc. apply hoare_trigger; [exact I|].
  intros x s _. split; [exact I|]. apply checked_quiet; auto.
Qed.

Lemma wait_valid_any n w :
  checked n w ->
  hoare respond anywhere w wait_valid (fun _ w' => checked n w').
Proof.
  intros Hc. unfold wait_valid.
  apply hoare_while with (Inv := fun _ w' => checked n w');
    [|exact I|assumption].
  intros [] w1 _ H1.
  apply hoare_bind with (Mid := fun _ w' => checked n w');
    [apply quiet_trigger; auto|].
  intros stat w2 _ H2. apply hoare_ret; [exact I|].
  destruct (Z.land stat 1 =? 0); [|assumption].
  apply hoare_ret; [exact I|assumption].
Qed.

(** One turn of the pull loop, whatever sample comes. *)
Lemma pull_body_any n w :
  (n < frame)%nat -> checked n w ->
  hoare respond anywhere w
    (pull_body (Z.of_nat n) (complaints (log w)))
    (fun errors w' => errors = complaints (log w') /\ checked (S n) w').
Proof.
  intros Hn Hc. unfold pull_body. pose proof frame_value as HN.
  apply hoare_bind with
    (Mid := fun _ w' => checked n w' /\
                        complaints (log w') = complaints (log w)).
  - eapply hoare_conseq.
    + apply hoare_while with
        (Inv := fun _ w' => checked n w' /\
                            complaints (log w') = complaints (log w))
        (Post := fun _ w' => checked n w' /\
                             complaints (log w') = complaints (log w));
        [|exact I|split; [assumption|reflexivity]].
      intros [] w1 _ [H1 Hc1].
      apply hoare_bind with
        (Mid := fun _ w' => checked n w' /\
                            complaints (log w') = complaints (log w)).
      * apply hoare_trigger; [exact I|].
        intros stat s _. split; [exact I|]. split.
        -- apply checked_quiet; auto.
        -- unfold complaints. cbn [log io_of].
           rewrite printed_snoc_other by reflexivity. exact Hc1.
      * intros stat w2 _ H2. apply hoare_ret; [exact I|].
        destruct (Z.land stat 1 =? 0); [|assumption].
        apply hoare_ret; [exact I|assumption].
    + intros r w' _ H. exact H.
  - intros _ w1 _ [(Hl & Hm & Hok & Hko) Hsame].
    apply hoare_bind with
      (Mid := fun sample w' =>
                sample = sample_at (log w') n /\ fetched n w' /\
                complaints (log w') = complaints (log w)).
    + apply hoare_trigger; [exact I|].
      intros sample s _. split; [exact I|]. cbn [log io_of].
      split; [rewrite <- Hl; symmetry; apply sample_at_snoc_new|].
      split.
      * unfold fetched. cbn [log].
        rewrite samples_app, List.length_app, Hl, !printed_snoc_other
          by reflexivity.
        split; [cbn; lia|]. split; [|split; assumption].
        rewrite Hm. apply diagnostics_ext. intros i Hi.
        symmetry. apply sample_at_snoc_old. lia.
      * unfold complaints. rewrite printed_snoc_other by reflexivity.
        exact Hsame.
    + intros sample w2 _ (-> & (Hl2 & Hm2 & Hok2 & Hko2) & Hsame2).
      fold (mismatch (sample_at (log w2)) n).
      pose proof (complaints_bound n w2 Hm2) as Hbound.
      destruct (mismatch (sample_at (log w2)) n) eqn:Hmis.
      * apply hoare_bind with
          (Mid := fun _ w' => checked (S n) w' /\
                              complaints (log w') =
                              complaints (log w2) + 1).
        -- apply hoare_trigger; [exact I|].
           intros [] s _. split; [exact I|]. cbn [log io_of].
           assert (Hsame_samples :
                     forall i, sample_at (log w2 ++
                       [IoPrintf fmt_mismatch
                          [Z.of_nat n; sample_at (log w2) n;
                           reverse_bits_k (Z.of_nat n)]]) i
                     = sample_at (log w2) i).
           { intros i. apply sample_at_snoc_other. reflexivity. }
           split.
           ++ unfold checked. cbn [log].
              rewrite samples_snoc_other, !printed_snoc by reflexivity.
              rewrite String.eqb_refl.
              change (String.eqb fmt_mismatch fmt_passed) with false.
              change (String.eqb fmt_mismatch fmt_failed) with false.
              rewrite ?app_nil_r.
              split; [assumption|]. split; [|split; assumption].
              rewrite (diagnostics_ext _ (sample_at (log w2)) (S n))
                by (intros; apply Hsame_samples).
              rewrite Hm2, mismatches_S, Hmis, map_app. reflexivity.
           ++ unfold complaints. rewrite printed_snoc, String.eqb_refl.
              rewrite List.length_app. cbn [List.length]. lia.
        -- intros _ w3 _ [H3 Hc3]. apply hoare_ret; [exact I|].
           split; [|assumption].
           rewrite Hc3, <- Hsame2. unfold add32. rewrite Hsame2.
           apply u32_small. lia.
      * apply hoare_ret; [exact I|]. split; [symmetry; assumption|].
        unfold checked. rewrite mismatches_S, Hmis, app_nil_r.
        split; [assumption|]. split; [assumption|]. split; assumption.
Qed.

Lemma pull_phase_any w :
  checked 0 w ->
  hoare respond anywhere w pull_phase
    (fun errors w' => errors = complaints (log w') /\ checked frame w').
Proof.
  intros Hc. unfold pull_phase. pose proof frame_value as HN.
  apply hoare_bind with
    (Mid := fun st w' => snd st = complaints (log w') /\ checked frame w').
  - apply hoare_while with
      (Inv := fun st w' => exists n, st = (Z.of_nat n, complaints (log w')) /\
                                     (n <= frame)%nat /\ checked n w').
    + intros st w1 _ (n & -> & Hn & H1). apply hoare_ret; [exact I|].
      rewrite N_value. destruct (Z.ltb_spec (Z.of_nat n) 1024) as [Hlt|Hge].
      * apply hoare_bind with
          (Mid := fun errors w' => errors = complaints (log w') /\
                                   checked (S n) w');
          [apply pull_body_any; [lia|assumption]|].
        intros errors w2 _ [-> H2]. apply hoare_ret; [exact I|].
        exists (S n). rewrite add32_succ by lia.
        split; [reflexivity|]. split; [lia|assumption].
      * replace frame with n by lia. split; [reflexivity|assumption].
    + exact I.
    + exists 0%nat. split; [|split; [lia|assumption]].
      destruct Hc as (_ & Hm & _). unfold complaints. rewrite Hm. reflexivity.
  - intros st w1 _ [He H1]. apply hoare_ret; [exact I|]. auto.
Qed.

Lemma push_phase_any w :
  checked 0 w ->
  hoare respond anywhere w push_phase (fun _ w' => checked 0 w').
Proof.
  intros Hc. unfold push_phase.
  apply hoare_bind with (Mid := fun _ w' => checked 0 w').
  - apply hoare_while with (Inv := fun _ w' => checked 0 w');
      [|exact I|assumption].
    intros i w1 _ H1. apply hoare_ret; [exact I|].
    destruct (i <? N); [|assumption].
    apply hoare_bind with (Mid := fun _ w' => checked 0 w');
      [apply quiet_trigger; auto|].
    intros _ w2 _ H2. apply hoare_ret; [exact I|assumption].
  - intros _ w1 _ H1. apply hoare_ret; [exact I|assumption].
Qed.

Lemma report_any w :
  checked frame w ->
  hoare respond anywhere w (report (complaints (log w)))
    (fun _ w' => judged w').
Proof.
  intros (Hl & Hm & Hok & Hko). unfold report.
  destruct (complaints (log w) =? 0) eqn:Hz;
    (apply hoare_trigger; [exact I|]);
    intros [] s _; (split; [exact I|]);
    unfold judged, complaints in *; cbn [log io_of];
    rewrite samples_snoc_other, !printed_snoc by reflexivity;
    rewrite ?String.eqb_refl.
  - change (String.eqb fmt_passed fmt_mismatch) with false.
    change (String.eqb fmt_passed fmt_failed) with false.
    rewrite ?app_nil_r, Hz, Hok, Hko.
    split; [assumption|]. split; [|split; reflexivity].
    rewrite Hm. apply diagnostics_ext. intros i _.
    symmetry. apply sample_at_snoc_other. reflexivity.
  - change (String.eqb fmt_failed fmt_mismatch) with false.
    change (String.eqb fmt_failed fmt_passed) with false.
    rewrite ?app_nil_r, Hz, Hok, Hko.
    split; [assumption|]. split; [|split; reflexivity].
    rewrite Hm. apply diagnostics_ext. intros i _.
    symmetry. apply sample_at_snoc_other. reflexivity.
Qed.

Lemma bitrev_selftest_any s :
  hoare respond anywhere (boot s) bitrev_selftest (fun _ w' => judged w').
Proof.
  unfold bitrev_selftest.
  apply hoare_bind with (Mid := fun _ w' => checked 0 w').
  - apply hoare_trigger; [exact I|].
    intros [] s' _. split; [exact I|]. repeat apply conj; reflexivity.
  - intros _ w1 _ H1.
    apply hoare_bind with (Mid := fun _ w' => checked 0 w');
      [apply push_phase_any; assumption|].
    intros _ w2 _ H2.
    apply hoare_bind with
      (Mid := fun errors w' => errors = complaints (log w') /\
                               checked frame w');
      [apply pull_phase_any; assumption|].
    intros errors w3 _ [-> H3].
    apply hoare_bind with (Mid := fun _ w' => judged w');
      [apply report_any; assumption|].
    intros _ w4 _ (Hl & Hm & Hok & Hko).
    apply hoare_trigger; [exact I|].
    intros [] s' _. split; [exact I|].
    unfold judged, complaints in *. cbn [log io_of].
    rewrite samples_snoc_other, !printed_snoc_other by reflexivity.
    split; [assumption|]. split; [|split; assumption].
    rewrite Hm. apply diagnostics_ext. intros i _.
    symmetry. apply sample_at_snoc_other. reflexivity.
Qed.

End AnyEnv.

(** X10: the verdict is sound against any environment, not only the
    hardware models: in a self-test that ran to its end, [N] samples
    were read from [OUT]; the diagnostics printed are exactly those of
    the indices whose sample, as logged, differs from [reverse_bits_k],
    in order, each with the sample read and the value expected; and the
    verdict is the success message when there is no diagnostic, the
    failure message naming their number otherwise. *)
Theorem selftest_verdict_any_environment {HW} (respond : env HW) (s : HW)
  (fuel : nat) :
  let l := log (final (run respond fuel bitrev_selftest (boot s))) in
  returned (run respond fuel bitrev_selftest (boot s)) = Some tt ->
  List.length (samples l) = frame /\
  printed fmt_mismatch l =
    map (diagnostic (sample_at l)) (mismatches (sample_at l) frame) /\
  printed fmt_passed l = (if complaints l =? 0 then [[N]] else []) /\
  printed fmt_failed l = (if complaints l =? 0 then [] else [[complaints l]]).
Proof.
  cbn zeta. intros E.
  exact (hoare_returned _ _ _ _ _ _ _ (bitrev_selftest_any respond s) E).
Qed.

Lemma selftest_verdict_any_environment_witness :
  let l := log (final (run (model_env (faulty_hw 5 0)) plenty bitrev_selftest
                         (boot power_on))) in
  List.length (samples l) = frame /\
  printed fmt_mismatch l =
    map (diagnostic (sample_at l)) (mismatches (sample_at l) frame) /\
  printed fmt_passed l = (if complaints l =? 0 then [[N]] else []) /\
  printed fmt_failed l = (if complaints l =? 0 then [] else [[complaints l]]).
Proof.
  apply (selftest_verdict_any_environment (model_env (faulty_hw 5 0))
           power_on plenty).
  vm_compute. reflexivity.
Defined.

(** ** The ROM string *)

Lemma name_addr_0 base : 0 <= base < 2 ^ 32 -> name_addr base 0 = base.
Proof. intros H. unfold name_addr. rewrite Z.add_0_r. apply u32_small, H. Qed.

(** [++p] on a 32-bit pointer. *)
Lemma name_addr_S base i : add32 (name_addr base i) 1 = name_addr base (S i).
Proof.
  unfold add32, name_addr, u32. rewrite Zplus_mod_idemp_l.
  f_equal. lia.
Qed.

(** The first zero of a sequence that has one. *)
Lemma first_zero (f : nat -> Z) n :
  f n = 0 -> exists k, (k <= n)%nat /\ f k = 0 /\
                       forall i, (i < k)%nat -> f i <> 0.
Proof.
  induction n as [n IH] using lt_wf_ind. intros Hn.
  destruct (existsb (fun i => f i =? 0) (seq 0 n)) eqn:E.
  - apply existsb_exists in E. destruct E as (i & Hi & Hz).
    apply in_seq in Hi. apply Z.eqb_eq in Hz.
    destruct (IH i) as (k & Hk & Hfk & Hmin); [lia|assumption|].
    exists k. split; [lia|]. split; assumption.
  - exists n. split; [lia|]. split; [assumption|].
    intros i Hi Hz.
    assert (existsb (fun i => f i =? 0) (seq 0 n) = true) as E'.
    { apply existsb_exists. exists i. split; [apply in_seq; lia|].
      apply Z.eqb_eq. assumption. }
    congruence.
Qed.

Section RomString.

Variable m : hw_model.
Variable base : Z.
Hypothesis base_32bit : 0 <= base < 2 ^ 32.

(** The loop of [read_name] on a string of [n] characters. *)
Lemma read_name_loop n w :
  (forall i, (i < n)%nat -> rom_at m (name_addr base i) <> 0) ->
  rom_at m (name_addr base n) = 0 ->
  converges (model_env m) w
    (while_ (fun p => c <- ITree.trigger (LoadByte p) ;; Ret (negb (c =? 0)))
            (fun p => c <- ITree.trigger (LoadByte p) ;;
                      ITree.trigger (Call "putchar" [c]) ;;
                      Ret (add32 p 1))
            base)
    (fun _ w' =>
       hw w' = hw w /\
       log w' = log w ++
                flat_map (fun i => name_echo (rom_at m) (name_addr base i))
                  (seq 0 n) ++
                [IoLoadByte (name_addr base n) 0]).
Proof.
  intros Hname Hend.
  apply converges_while with
    (Inv := fun p w' =>
       exists i, (i <= n)%nat /\ p = name_addr base i /\ hw w' = hw w /\
                 log w' = log w ++
                   flat_map (fun i => name_echo (rom_at m) (name_addr base i))
                     (seq 0 i))
    (variant := fun _ w' =>
       (List.length (log w) + 3 * n - List.length (log w'))%nat).
  - intros p w1 (i & Hi & -> & Hhw & Hlog).
    assert (Hlen : List.length (log w1) = (List.length (log w) + 3 * i)%nat).
    { rewrite Hlog, List.length_app. f_equal.
      clear. induction i as [|i IH]; [reflexivity|].
      rewrite seq_S, flat_map_app, List.length_app, IH. cbn. lia. }
    apply converges_bind with
      (Mid := fun c w' =>
         c = rom_at m (name_addr base i) /\ hw w' = hw w /\
         log w' = log w1 ++ [IoLoadByte (name_addr base i) c]).
    + apply converges_trigger. intros c s E. model_said E c s.
      cbn [hw log io_of]. auto.
    + intros c w2 (-> & Hhw2 & Hlog2). apply converges_ret.
      destruct (rom_at m (name_addr base i) =? 0) eqn:Hc; cbn [negb].
      * apply Z.eqb_eq in Hc.
        assert (i = n) as ->.
        { destruct (Nat.eq_dec i n); [assumption|].
          exfalso. apply (Hname i); [lia|assumption]. }
        split; [assumption|].
        rewrite Hlog2, Hlog, <- app_assoc, Hc. reflexivity.
      * apply Z.eqb_neq in Hc.
        assert (i < n)%nat as Hlt.
        { destruct (Nat.eq_dec i n) as [->|]; [contradiction|lia]. }
        apply converges_bind with
          (Mid := fun c w' =>
             c = rom_at m (name_addr base i) /\ hw w' = hw w /\
             log w' = log w2 ++ [IoLoadByte (name_addr base i) c]).
        -- apply converges_trigger. intros c s E. model_said E c s.
           cbn [hw log io_of]. auto.
        -- intros c w3 (-> & Hhw3 & Hlog3).
           apply converges_bind with
             (Mid := fun _ w' =>
                hw w' = hw w /\
                log w' = log w3 ++
                         [IoCall "putchar" [rom_at m (name_addr base i)]]).
           ++ apply converges_trigger. intros [] s E. model_did E s.
              cbn [hw log io_of]. auto.
           ++ intros _ w4 (Hhw4 & Hlog4). apply converges_ret. split.
              ** exists (S i). split; [lia|].
                 split; [apply name_addr_S|]. split; [assumption|].
                 rewrite Hlog4, Hlog3, Hlog2, Hlog, seq_S, flat_map_app.
                 cbn [flat_map Nat.add]. unfold name_echo.
                 rewrite <- !app_assoc. reflexivity.
              ** rewrite Hlog4, Hlog3, Hlog2, !List.length_app, Hlen.
                 cbn [List.length]. lia.
  - exists 0%nat. split; [lia|]. split; [symmetry; apply name_addr_0, base_32bit|].
    split; [reflexivity|]. cbn. rewrite app_nil_r. reflexivity.
Qed.

Lemma read_name_converges n w :
  (forall i, (i < n)%nat -> rom_at m (name_addr base i) <> 0) ->
  rom_at m (name_addr base n) = 0 ->
  converges (model_env m) w (read_name base)
    (fun _ w' => hw w' = hw w /\
                 log w' = log w ++ name_log (rom_at m) base n).
Proof.
  intros Hname Hend. unfold read_name.
  eapply converges_bind; [apply (read_name_loop n w Hname Hend)|].
  intros _ w1 [Hhw1 Hlog1]. cbn beta.
  apply converges_bind with
    (Mid := fun _ w' => hw w' = hw w /\
                        log w' = log w1 ++ [IoPrintf nl []]).
  - apply converges_trigger. intros [] s E. model_did E s.
    cbn [hw log io_of]. auto.
  - intros _ w2 [Hhw2 Hlog2].
    apply converges_trigger. intros [] s E. model_did E s.
    cbn [hw log io_of]. split; [assumption|].
    rewrite Hlog2, Hlog1. unfold name_log.
    rewrite <- !app_assoc. reflexivity.
Qed.

(** Without a terminator the loop has no exit.  [Safe] is any property
    of the world that loading a byte and calling [putchar] keep. *)
Variable Safe : world hw_state -> Prop.
Hypothesis Safe_load :
  forall w s a c, Safe w -> Safe (mk_world s (log w ++ [IoLoadByte a c])).
Hypothesis Safe_putchar :
  forall w s c, Safe w -> Safe (mk_world s (log w ++ [IoCall "putchar" [c]])).
Hypothesis endless : forall i, rom_at m (name_addr base i) <> 0.

Lemma read_name_hang w :
  Safe w -> hoare (model_env m) Safe w (read_name base) (fun _ _ => False).
Proof.
  intros Hs. unfold read_name.
  apply hoare_bind with (Mid := fun _ _ => False); [|contradiction].
  apply hoare_while with (Inv := fun p _ => exists i, p = name_addr base i);
    [|assumption|exists 0%nat; symmetry; apply name_addr_0, base_32bit].
  intros p w1 Hs1 [i ->].
  apply hoare_bind with
    (Mid := fun c _ => c = rom_at m (name_addr base i)).
  - apply hoare_trigger; [assumption|].
    intros c s E. model_said E c s. split; [|reflexivity].
    apply Safe_load. assumption.
  - intros c w2 Hs2 ->. apply hoare_ret; [assumption|].
    destruct (rom_at m (name_addr base i) =? 0) eqn:Hc; cbn [negb].
    + apply Z.eqb_eq in Hc. exact (endless i Hc).
    + apply hoare_bind with (Mid := fun _ _ => True).
      * apply hoare_trigger; [assumption|].
        intros c s E. split; [|exact I]. apply Safe_load. assumption.
      * intros c w3 Hs3 _.
        apply hoare_bind with (Mid := fun _ _ => True).
        -- apply hoare_trigger; [assumption|].
           intros [] s E. split; [|exact I]. apply Safe_putchar. assumption.
        -- intros _ w4 Hs4 _. apply hoare_ret; [assumption|].
           exists (S i). apply name_addr_S.
Qed.

End RomString.

(** The loads taken out, the model's log of a string is the string
    handed to [putchar], the newline and the flush. *)
Lemma visible_app l1 l2 : visible (l1 ++ l2) = visible l1 ++ visible l2.
Proof. apply filter_app. Qed.

Lemma visible_name_log rom base n :
  visible (name_log rom base n) =
  map (fun i => IoCall "putchar" [rom (name_addr base i)]) (seq 0 n) ++
  [IoPrintf nl []; IoCall "uart_write_flush" []].
Proof.
  unfold name_log. rewrite visible_app. f_equal.
  induction (seq 0 n) as [|i l IH]; [reflexivity|].
  cbn [flat_map map]. rewrite visible_app, IH. reflexivity.
Qed.

(** X11: on a SoC whose ROM holds, from [USER_ROM_BASE_ADDR] on, [n]
    non-zero bytes and then a zero, all within the 32-bit address
    space, [read_name] returns; what it has then done, the loading of
    ROM bytes aside, is to hand the [n] characters to [putchar], one
    call each and in address order, to print the newline and to flush
    the UART -- that and nothing else -- and the hardware is as it
    was. *)
Theorem read_name_echoes_rom_string (m : hw_model) (base : Z) (n : nat)
  (w : world hw_state) :
  0 <= base -> base + Z.of_nat n < 2 ^ 32 ->
  (forall i, (i < n)%nat -> rom_at m (base + Z.of_nat i) <> 0) ->
  rom_at m (base + Z.of_nat n) = 0 ->
  exists fuel,
    returned (run (model_env m) fuel (read_name base) w) = Some tt /\
    hw (final (run (model_env m) fuel (read_name base) w)) = hw w /\
    visible (log (final (run (model_env m) fuel (read_name base) w))) =
      visible (log w) ++
      map (fun i => IoCall "putchar" [rom_at m (base + Z.of_nat i)])
        (seq 0 n) ++
      [IoPrintf nl []; IoCall "uart_write_flush" []].
Proof.
  intros Hb Htop Hname Hend.
  assert (Haddr : forall i, (i <= n)%nat ->
                    name_addr base i = base + Z.of_nat i).
  { intros i Hi. unfold name_addr. apply u32_small. lia. }
  assert (Hb32 : 0 <= base < 2 ^ 32) by lia.
  assert (Hname' : forall i, (i < n)%nat -> rom_at m (name_addr base i) <> 0).
  { intros i Hi. rewrite Haddr by lia. apply Hname, Hi. }
  assert (Hend' : rom_at m (name_addr base n) = 0).
  { rewrite Haddr by lia. exact Hend. }
  destruct (converges_returned _ _ _ _
              (read_name_converges m base Hb32 n w Hname' Hend'))
    as (fuel & [] & E & Hhw & Hlog).
  exists fuel. split; [exact E|]. split; [exact Hhw|].
  rewrite Hlog, visible_app, visible_name_log. do 2 f_equal.
  apply map_ext_in. intros i Hi. apply in_seq in Hi.
  rewrite Haddr by lia. reflexivity.
Qed.

Lemma read_name_echoes_rom_string_witness :
  exists fuel,
    returned (run (model_env (named_hw 4096 [72; 105])) fuel (read_name 4096)
                (boot power_on)) = Some tt /\
    hw (final (run (model_env (named_hw 4096 [72; 105])) fuel (read_name 4096)
                 (boot power_on))) = hw (boot power_on) /\
    visible (log (final (run (model_env (named_hw 4096 [72; 105])) fuel
                           (read_name 4096) (boot power_on)))) =
      visible (log (boot power_on)) ++
      map (fun i => IoCall "putchar"
                      [rom_at (named_hw 4096 [72; 105]) (4096 + Z.of_nat i)])
        (seq 0 2) ++
      [IoPrintf nl []; IoCall "uart_write_flush" []].
Proof.
  apply (read_name_echoes_rom_string (named_hw 4096 [72; 105]) 4096 2
           (boot power_on)).
  - lia.
  - cbn. lia.
  - intros i Hi. destruct i as [|[|i]]; [vm_compute; discriminate..|lia].
  - reflexivity.
Defined.

(** X12: on a SoC whose ROM has no zero byte on the way of the
    pointer, [read_name] never returns, whatever the fuel, and its
    newline is never printed. *)
Theorem read_name_needs_terminator (m : hw_model) (base : Z)
  (w : world hw_state) (fuel : nat) :
  0 <= base < 2 ^ 32 ->
  (forall i, rom_at m (name_addr base i) <> 0) ->
  returned (run (model_env m) fuel (read_name base) w) = None /\
  printed nl (log (final (run (model_env m) fuel (read_name base) w))) =
    printed nl (log w).
Proof.
  intros Hb Hrom.
  assert (H : hoare (model_env m)
                (fun w' => printed nl (log w') = printed nl (log w))
                w (read_name base) (fun _ _ => False)).
  { apply read_name_hang; try assumption.
    - intros w1 s a c H1. cbn [log].
      rewrite printed_snoc_other by reflexivity. assumption.
    - intros w1 s c H1. cbn [log].
      rewrite printed_snoc_other by reflexivity. assumption.
    - reflexivity. }
  split; [|exact (hoare_stopped _ _ _ _ _ fuel H)].
  destruct (returned (run (model_env m) fuel (read_name base) w)) eqn:E;
    [|reflexivity].
  exfalso. exact (hoare_returned _ _ _ _ _ _ _ H E).
Qed.

Lemma read_name_needs_terminator_witness :
  returned (run (model_env endless_hw) 40 (read_name 4096) (boot power_on))
  = None /\
  printed nl (log (final (run (model_env endless_hw) 40 (read_name 4096)
                            (boot power_on)))) =
    printed nl (log (boot power_on)).
Proof.
  apply (read_name_needs_terminator endless_hw 4096 (boot power_on) 40).
  - lia.
  - intros i. vm_compute. discriminate.
Defined.

(** ** The demo harness as a whole *)

Section Silent.

Context {HW : Type} (respond : env HW).
Variable Safe : world HW -> Prop.

(** A loop without events leaves the world alone. *)
Lemma hoare_while_pure {St} (Inv : St -> Prop) (c : St -> bool)
  (f : St -> St) :
  (forall s, Inv s -> c s = true -> Inv (f s)) ->
  forall s w, Safe w -> Inv s ->
    hoare respond Safe w
      (while_ (fun s => Ret (c s)) (fun s => Ret (f s)) s)
      (fun s' w' => Inv s' /\ c s' = false /\ w' = w).
Proof.
  intros Hstep s w Hs Hinv.
  apply (hoare_while respond Safe (fun s w' => Inv s /\ w' = w));
    [|assumption|auto].
  intros s0 w0 Hs0 [Hi ->]. apply hoare_ret; [assumption|].
  destruct (c s0) eqn:Hc; [|auto].
  apply hoare_ret; [assumption|]. auto.
Qed.

Lemma isqrt_hoare w n :
  0 <= n < 2 ^ 32 -> Safe w ->
  hoare respond Safe w (isqrt n) (fun r w' => w' = w /\ r = Z.sqrt n).
Proof.
  intros Hn Hs. unfold isqrt.
  eapply hoare_bind.
  - apply (hoare_while_pure (align_inv n)); [|assumption|].
    + intros b Ha Hgt. apply align_step; [lia|assumption|assumption].
    + right. exists 15. change (shl32 1 30) with 1073741824.
      repeat split; lia.
  - intros b w1 Hs1 (Ha & Hle & ->). cbn beta.
    eapply hoare_bind.
    + apply (hoare_while_pure (root_inv n)); [|assumption|].
      * intros s Hi Hc. apply root_step; assumption.
      * apply root_inv_start; [assumption|assumption|lia].
    + intros s w2 Hs2 ((R & HR & HRn & _ & Hcases) & Hbit & ->). cbn beta.
      apply hoare_ret; [assumption|]. split; [reflexivity|].
      apply negb_false_iff, Z.eqb_eq in Hbit.
      destruct Hcases as [(_ & -> & Hlt)|(k & b' & Hk & Hb & Hbb & _)].
      * symmetry. apply Z.sqrt_unique. lia.
      * assert (0 < b') by (subst b'; apply Z.pow_pos_nonneg; lia). nia.
Qed.

End Silent.

(** *** Measurements *)

Section Measurements.

Context {HW : Type} (respond : env HW).

Lemma measured_step {X} (e : socE X) l (w : world HW) :
  measured l w ->
  hoare respond anywhere w (ITree.trigger e)
    (fun x w' =>
       measured (l ++ if is_measurement (io_of e x) then [io_of e x] else [])
         w').
Proof.
  intros Hm. apply hoare_trigger; [exact I|].
  intros x s _. split; [exact I|]. unfold measured in *. cbn [log].
  rewrite filter_snoc, Hm. reflexivity.
Qed.

Lemma measured_quiet {X} (e : socE X) l (w : world HW) :
  (forall x, is_measurement (io_of e x) = false) ->
  measured l w ->
  hoare respond anywhere w (ITree.trigger e) (fun _ w' => measured l w').
Proof.
  intros Hq Hm. eapply hoare_conseq; [apply measured_step, Hm|].
  intros x w' _ H. cbn beta in H. rewrite Hq, app_nil_r in H. exact H.
Qed.

Lemma read_name_measured base l (w : world HW) :
  measured l w ->
  hoare respond anywhere w (read_name base) (fun _ w' => measured l w').
Proof.
  intros Hm. unfold read_name.
  apply hoare_bind with (Mid := fun _ w' => measured l w').
  - apply hoare_while with (Inv := fun _ w' => measured l w');
      [|exact I|assumption].
    intros p w1 _ H1.
    apply hoare_bind with (Mid := fun _ w' => measured l w');
      [apply measured_quiet; [reflexivity|assumption]|].
    intros c w2 _ H2. apply hoare_ret; [exact I|].
    destruct (negb (c =? 0)); [|assumption].
    apply hoare_bind with (Mid := fun _ w' => measured l w');
      [apply measured_quiet; [reflexivity|assumption]|].
    intros c' w3 _ H3.
    apply hoare_bind with (Mid := fun _ w' => measured l w');
      [apply measured_quiet; [reflexivity|assumption]|].
    intros _ w4 _ H4. apply hoare_ret; [exact I|assumption].
  - intros _ w1 _ H1.
    apply hoare_bind with (Mid := fun _ w' => measured l w');
      [apply measured_quiet; [reflexivity|assumption]|].
    intros _ w2 _ H2. apply measured_quiet; [reflexivity|assumption].
Qed.

Lemma wait_valid_measured l (w : world HW) :
  measured l w ->
  hoare respond anywhere w wait_valid (fun _ w' => measured l w').
Proof.
  intros Hm. unfold wait_valid.
  apply hoare_while with (Inv := fun _ w' => measured l w');
    [|exact I|assumption].
  intros [] w1 _ H1.
  apply hoare_bind with (Mid := fun _ w' => measured l w');
    [apply measured_quiet; [reflexivity|assumption]|].
  intros stat w2 _ H2. apply hoare_ret; [exact I|].
  destruct (Z.land stat 1 =? 0); [|assumption].
  apply hoare_ret; [exact I|assumption].
Qed.

Lemma bitrev_selftest_measured l (w : world HW) :
  measured l w ->
  hoare respond anywhere w bitrev_selftest (fun _ w' => measured l w').
Proof.
  intros Hm. unfold bitrev_selftest.
  apply hoare_bind with (Mid := fun _ w' => measured l w');
    [apply measured_quiet; [reflexivity|assumption]|].
  intros _ w1 _ H1.
  apply hoare_bind with (Mid := fun _ w' => measured l w').
  { unfold push_phase.
    apply hoare_bind with (Mid := fun _ w' => measured l w').
    - apply hoare_while with (Inv := fun _ w' => measured l w');
        [|exact I|assumption].
      intros i w2 _ H2. apply hoare_ret; [exact I|].
      destruct (i <? N); [|assumption].
      apply hoare_bind with (Mid := fun _ w' => measured l w');
        [apply measured_quiet; [reflexivity|assumption]|].
      intros _ w3 _ H3. apply hoare_ret; [exact I|assumption].
    - intros _ w2 _ H2. apply hoare_ret; [exact I|assumption]. }
  intros _ w2 _ H2.
  apply hoare_bind with (Mid := fun _ w' => measured l w').
  { unfold pull_phase.
    apply hoare_bind with (Mid := fun _ w' => measured l w').
    - apply hoare_while with (Inv := fun _ w' => measured l w');
        [|exact I|assumption].
      intros [i errors] w3 _ H3. apply hoare_ret; [exact I|].
      destruct (i <? N); [|assumption].
      apply hoare_bind with (Mid := fun _ w' => measured l w').
      + unfold pull_body.
        apply hoare_bind with (Mid := fun _ w' => measured l w');
          [apply wait_valid_measured; assumption|].
        intros _ w4 _ H4.
        apply hoare_bind with (Mid := fun _ w' => measured l w');
          [apply measured_quiet; [reflexivity|assumption]|].
        intros sample w5 _ H5.
        destruct (negb (sample =? reverse_bits_k i)).
        * apply hoare_bind with (Mid := fun _ w' => measured l w');
            [apply measured_quiet; [reflexivity|assumption]|].
          intros _ w6 _ H6. apply hoare_ret; [exact I|assumption].
        * apply hoare_ret; [exact I|assumption].
      + intros errors' w4 _ H4. apply hoare_ret; [exact I|assumption].
    - intros st w3 _ H3. apply hoare_ret; [exact I|assumption]. }
  intros errors w3 _ H3.
  apply hoare_bind with (Mid := fun _ w' => measured l w').
  { unfold report. destruct (errors =? 0);
      (apply measured_quiet; [reflexivity|assumption]). }
  intros _ w4 _ H4. apply measured_quiet; [reflexivity|assumption].
Qed.

Ltac quiet_step :=
  eapply hoare_bind;
  [apply measured_quiet; [reflexivity|eassumption]
  |let H := fresh "Hm" in intros ? ? _ H; cbn beta in H].

Ltac loud_step x :=
  eapply hoare_bind;
  [apply measured_step; eassumption
  |let H := fresh "Hm" in intros x ? _ H; cbn beta in H].

Lemma main_measured base (s : HW) :
  hoare respond anywhere (boot s) (main base)
    (fun r w' =>
       r = 0 /\
       exists g1 g2 t0 t1,
         measured
           [IoCallRet "gpio_read" [] g1; IoPrintf fmt_gpio_a0 [g1];
            IoCallRet "gpio_read" [] g2; IoPrintf fmt_gpio_50 [g2];
            IoCallRet "get_mcycle" [] t0; IoCallRet "get_mcycle" [] t1;
            IoPrintf fmt_isqrt [Z.sqrt 1234567890; sub32 t1 t0]] w').
Proof.
  assert (H0 : measured [] (boot s)) by reflexivity.
  unfold main.
  do 7 quiet_step.
  loud_step g1. loud_step u1. quiet_step. quiet_step.
  loud_step g2. loud_step u2. loud_step t0.
  eapply hoare_bind; [apply (isqrt_hoare respond anywhere); [lia|exact I]|].
  intros root w1 _ [-> ->].
  loud_step t1. loud_step u3. do 4 quiet_step.
  eapply hoare_bind; [apply read_name_measured; eassumption|].
  intros ? w2 _ H2. cbn beta in H2.
  eapply hoare_bind; [apply bitrev_selftest_measured; eassumption|].
  intros ? w3 _ H3. cbn beta in H3.
  apply hoare_ret; [exact I|]. split; [reflexivity|].
  exists g1, g2, t0, t1. exact H3.
Qed.

End Measurements.

(** X13: whatever the environment, a [main] that ran to its end
    returned 0 and reported what it measured: the values the two calls
    of [gpio_read] returned went out with the two GPIO lines, in this
    order, and the line of [isqrt] shows 35136, the integer square root
    of 1234567890, with the difference of the two readings of
    [get_mcycle] taken around it, modulo [2^32]; no other value was read
    from a peripheral function and none of the three lines was printed
    twice. *)
Theorem main_reports_measurements {HW} (respond : env HW) (base : Z) (s : HW)
  (fuel : nat) (r : Z) :
  returned (run respond fuel (main base) (boot s)) = Some r ->
  r = 0 /\
  exists g1 g2 t0 t1,
    filter is_measurement (log (final (run respond fuel (main base) (boot s))))
    = [IoCallRet "gpio_read" [] g1; IoPrintf fmt_gpio_a0 [g1];
       IoCallRet "gpio_read" [] g2; IoPrintf fmt_gpio_50 [g2];
       IoCallRet "get_mcycle" [] t0; IoCallRet "get_mcycle" [] t1;
       IoPrintf fmt_isqrt [35136; sub32 t1 t0]].
Proof.
  intros E.
  exact (hoare_returned _ _ _ _ _ _ _ (main_measured respond base s) E).
Qed.

Lemma main_reports_measurements_witness :
  0 = 0 /\
  exists g1 g2 t0 t1,
    filter is_measurement
      (log (final (run (model_env (named_hw 4096 [72; 105])) ample
                     (main 4096) (boot power_on))))
    = [IoCallRet "gpio_read" [] g1; IoPrintf fmt_gpio_a0 [g1];
       IoCallRet "gpio_read" [] g2; IoPrintf fmt_gpio_50 [g2];
       IoCallRet "get_mcycle" [] t0; IoCallRet "get_mcycle" [] t1;
       IoPrintf fmt_isqrt [35136; sub32 t1 t0]].
Proof.
  apply (main_reports_measurements (model_env (named_hw 4096 [72; 105])) 4096
           power_on ample 0).
  vm_compute. reflexivity.
Defined.

(** *** Running to the end *)

Section MainRuns.

Variable m : hw_model.

(** Only reads of the accelerator's registers move the hardware. *)
Lemma model_quiet {X} (e : socE X) w :
  (forall x, is_read (io_of e x) = false) ->
  converges (model_env m) w (ITree.trigger e) (fun _ w' => hw w' = hw w).
Proof.
  intros Hq. apply converges_trigger. intros x s E. cbn [hw].
  destruct e; cbn in E; try (injection E as ? ?; subst; reflexivity);
    specialize (Hq 0); discriminate.
Qed.

(** The events of [main] before the self-test are not the banner and
    no write to [IN]. *)
Lemma not_started_step (w : world hw_state) (s : hw_state) e :
  printed fmt_start [e] = [] -> writes [e] = [] ->
  not_started w -> not_started (mk_world s (log w ++ [e])).
Proof.
  intros Hp Hw [Hb Hi]. unfold not_started. cbn [log].
  rewrite printed_app, writes_app, Hb, Hi, Hp, Hw. split; reflexivity.
Qed.

Lemma model_quiet_hoare {X} (e : socE X) w :
  (forall x, printed fmt_start [io_of e x] = []) ->
  (forall x, writes [io_of e x] = []) ->
  not_started w ->
  hoare (model_env m) not_started w (ITree.trigger e) (fun _ _ => True).
Proof.
  intros Hp Hw Hu. apply hoare_trigger; [assumption|].
  intros x s _. split; [|exact I]. apply not_started_step; auto.
Qed.

Variable base : Z.
Hypothesis base_32bit : 0 <= base < 2 ^ 32.

Ltac idle_step :=
  apply converges_bind with (Mid := fun _ w' => hw w' = power_on);
  [eapply converges_conseq;
   [apply model_quiet; reflexivity
   |let H := fresh "Hq" in intros ? ? H; cbn beta in H; rewrite H; assumption]
  |let H := fresh "Hw" in intros ? ? H].

Ltac safe_step :=
  eapply hoare_bind;
  [apply model_quiet_hoare; [reflexivity|reflexivity|assumption]
  |intros ? ? ? _].

Section Working.

Hypothesis terminated : exists n, rom_at m (name_addr base n) = 0.
Hypothesis eventually_ready :
  forall i, (i < frame)%nat -> exists p, ready (stat_at m i p) = true.

Lemma bitrev_selftest_converges_from w :
  at_word 0 0 w ->
  converges (model_env m) w bitrev_selftest (fun _ _ => True).
Proof.
  intros Hat. unfold bitrev_selftest.
  apply converges_bind with (Mid := fun _ w' => at_word 0 0 w').
  - apply converges_trigger. intros [] s E. model_did E s. exact Hat.
  - intros _ w1 Hat1.
    apply converges_bind with (Mid := fun _ w' => at_word 0 0 w');
      [apply push_phase_converges; assumption|].
    intros _ w2 Hat2.
    apply converges_bind with (Mid := fun _ _ => True);
      [apply (pull_phase_converges m eventually_ready); assumption|].
    intros errors w3 _.
    apply converges_bind with (Mid := fun _ _ => True).
    + unfold report. destruct (errors =? 0);
        apply converges_trigger; intros; exact I.
    + intros _ w4 _. apply converges_trigger. intros; exact I.
Qed.

Lemma main_converges :
  converges (model_env m) (boot power_on) (main base) (fun r _ => r = 0).
Proof.
  assert (Hw0 : hw (boot power_on) = power_on) by reflexivity.
  unfold main.
  do 14 idle_step.
  eapply converges_bind; [apply isqrt_converges; lia|].
  intros root w1 (-> & _). cbn beta.
  do 6 idle_step.
  destruct terminated as [n0 Hn0].
  destruct (first_zero (fun i => rom_at m (name_addr base i)) n0 Hn0)
    as (n & _ & Hend & Hname).
  eapply converges_bind;
    [apply (read_name_converges m base base_32bit n); assumption|].
  intros ? w2 [Hhw2 _]. cbn beta.
  eapply converges_bind.
  - apply bitrev_selftest_converges_from.
    unfold at_word. rewrite Hhw2.
    match goal with H : hw _ = power_on |- _ => rewrite H end.
    split; reflexivity.
  - intros ? w3 _. apply converges_ret. reflexivity.
Qed.

End Working.

Section Unterminated.

Hypothesis endless : forall i, rom_at m (name_addr base i) <> 0.

Lemma main_hang :
  hoare (model_env m) not_started (boot power_on) (main base)
    (fun _ _ => False).
Proof.
  assert (Hu : not_started (boot power_on)) by (split; reflexivity).
  unfold main.
  do 14 safe_step.
  eapply hoare_bind;
    [apply (isqrt_hoare (model_env m) not_started); [lia|assumption]|].
  intros root w1 Hu1 _.
  do 6 safe_step.
  apply hoare_bind with (Mid := fun _ _ => False); [|contradiction].
  apply (read_name_hang m base base_32bit not_started);
    [intros; apply not_started_step; [reflexivity|reflexivity|assumption]
    |intros; apply not_started_step; [reflexivity|reflexivity|assumption]
    |assumption|assumption].
Qed.

End Unterminated.

End MainRuns.

(** X14: on a SoC whose ROM string is terminated and whose
    accelerator raises bit 0 of [STAT] at some poll for each of the [N]
    words, [main] runs through all its loops and returns 0. *)
Theorem main_returns_on_working_soc (m : hw_model) (base : Z) :
  0 <= base < 2 ^ 32 ->
  (exists n, rom_at m (name_addr base n) = 0) ->
  (forall i, (i < frame)%nat -> exists p, Z.land (stat_at m i p) 1 <> 0) ->
  exists fuel,
    returned (run (model_env m) fuel (main base) (boot power_on)) = Some 0.
Proof.
  intros Hb Hrom Hready.
  assert (Hr : forall i, (i < frame)%nat ->
                 exists p, ready (stat_at m i p) = true).
  { intros i Hi. destruct (Hready i Hi) as [p Hp]. exists p.
    unfold ready. apply negb_true_iff, Z.eqb_neq. exact Hp. }
  destruct (converges_returned _ _ _ _ (main_converges m base Hb Hrom Hr))
    as (fuel & r & E & ->).
  exists fuel. exact E.
Qed.

Lemma main_returns_on_working_soc_witness :
  exists fuel,
    returned (run (model_env (named_hw 4096 [72; 105])) fuel (main 4096)
                (boot power_on)) = Some 0.
Proof.
  apply (main_returns_on_working_soc (named_hw 4096 [72; 105]) 4096).
  - lia.
  - exists 2%nat. reflexivity.
  - intros i _. exists 0%nat. cbn. discriminate.
Defined.

(** X15: on a SoC whose ROM has no zero byte on the way of the
    pointer -- which then goes round the whole address space -- [main]
    never returns, whatever the fuel: it is held in [read_name], and
    the self-test does not start: its banner is never printed and
    nothing is ever written to [IN]. *)
Theorem main_held_by_unterminated_name (m : hw_model) (base : Z)
  (fuel : nat) :
  0 <= base < 2 ^ 32 ->
  (forall i, rom_at m (name_addr base i) <> 0) ->
  returned (run (model_env m) fuel (main base) (boot power_on)) = None /\
  printed fmt_start
    (log (final (run (model_env m) fuel (main base) (boot power_on)))) = [] /\
  writes
    (log (final (run (model_env m) fuel (main base) (boot power_on)))) = [].
Proof.
  intros Hb Hrom.
  pose proof (main_hang m base Hb Hrom) as H.
  split; [|exact (hoare_stopped _ _ _ _ _ fuel H)].
  destruct (returned (run (model_env m) fuel (main base) (boot power_on)))
    eqn:E; [|reflexivity].
  exfalso. exact (hoare_returned _ _ _ _ _ _ _ H E).
Qed.

Lemma main_held_by_unterminated_name_witness :
  returned (run (model_env endless_hw) 200 (main 4096) (boot power_on))
  = None /\
  printed fmt_start
    (log (final (run (model_env endless_hw) 200 (main 4096)
                   (boot power_on)))) = [] /\
  writes
    (log (final (run (model_env endless_hw) 200 (main 4096)
                   (boot power_on)))) = [].
Proof.
  apply (main_held_by_unterminated_name endless_hw 4096 200).
  - lia.
  - intros i. vm_compute. discriminate.
Defined.

(** ** The tally and the verdict of a run to the end *)

(** What a triple says about a program that converges. *)
Lemma hoare_converges {HW R} (respond : env HW) Safe w (t : itree socE R)
  P Q :
  hoare respond Safe w t P -> converges respond w t Q ->
  exists fuel r, returned (run respond fuel t w) = Some r /\
                 P r (final (run respond fuel t w)).
Proof.
  intros H C. destruct (converges_returned _ _ _ _ C) as (fuel & r & E & _).
  exists fuel, r. split; [exact E|].
  exact (hoare_returned _ _ _ _ _ _ _ H E).
Qed.

Lemma ready_polls m :
  (forall i, (i < frame)%nat -> exists p, Z.land (stat_at m i p) 1 <> 0) ->
  forall i, (i < frame)%nat -> exists p, ready (stat_at m i p) = true.
Proof.
  intros H i Hi. destruct (H i Hi) as [p Hp]. exists p. apply ready_iff, Hp.
Qed.

Section MainVerdict.

Variable m : hw_model.

(** What [main] does before the self-test neither pops nor reports. *)
Lemma pull_state_aside {X} (e : socE X) w :
  (forall x, is_read (io_of e x) = false) ->
  (forall x, printed fmt_mismatch [io_of e x] = []) ->
  (forall x, printed fmt_passed [io_of e x] = []) ->
  (forall x, printed fmt_failed [io_of e x] = []) ->
  pull_state m 0 w ->
  hoare (model_env m) anywhere w (ITree.trigger e)
    (fun _ w' => pull_state m 0 w').
Proof.
  intros Hr Hmis Hok Hko (Hp & Hs & Hd & Hpa & Hfa).
  apply hoare_trigger; [exact I|]. intros x s E. split; [exact I|].
  assert (Hpop : popped s = popped (hw w)).
  { destruct e; cbn in E; try (injection E as ? ?; subst; reflexivity);
      specialize (Hr 0); discriminate. }
  assert (Hsam : samples [io_of e x] = []).
  { specialize (Hr x). destruct e; cbn in *; try reflexivity; discriminate. }
  unfold pull_state. cbn [hw log].
  rewrite samples_app, !printed_app, Hmis, Hok, Hko, Hsam, !app_nil_r.
  repeat apply conj; congruence.
Qed.

Ltac aside_step :=
  eapply hoare_bind;
  [apply pull_state_aside; [reflexivity..|assumption]
  |let H := fresh "Hst" in intros ? ? _ H; cbn beta in H].

Lemma read_name_model base w :
  pull_state m 0 w ->
  hoare (model_env m) anywhere w (read_name base)
    (fun _ w' => pull_state m 0 w').
Proof.
  intros H0. unfold read_name.
  apply hoare_bind with (Mid := fun _ w' => pull_state m 0 w').
  - apply hoare_while with (Inv := fun _ w' => pull_state m 0 w');
      [|exact I|assumption].
    intros p w1 _ H1. aside_step. apply hoare_ret; [exact I|].
    match goal with |- if ?b then _ else _ => destruct b end; [|assumption].
    do 2 aside_step. apply hoare_ret; [exact I|assumption].
  - intros ? w1 _ H1. cbn beta in H1. aside_step.
    apply pull_state_aside; [reflexivity..|assumption].
Qed.

Lemma bitrev_selftest_model_from w :
  pull_state m 0 w ->
  hoare (model_env m) anywhere w bitrev_selftest
    (fun _ w' => verdict_state m w').
Proof.
  intros H0. unfold bitrev_selftest. aside_step.
  apply hoare_bind with (Mid := fun _ w' => pull_state m 0 w');
    [apply push_phase_model; assumption|].
  intros _ w2 _ H2.
  apply hoare_bind with
    (Mid := fun errors w' => errors = tally m frame /\
                             pull_state m frame w');
    [apply pull_phase_model; assumption|].
  intros errors w3 _ [-> H3].
  apply hoare_bind with (Mid := fun _ w' => verdict_state m w');
    [apply report_model; assumption|].
  intros _ w4 _ (Hp & Hs & Hm & Hok & Hko).
  apply hoare_trigger; [exact I|].
  intros [] s E. split; [exact I|]. model_did E s.
  unfold verdict_state. cbn [hw log io_of].
  rewrite samples_snoc_other, !printed_snoc_other by reflexivity.
  repeat apply conj; assumption.
Qed.

Lemma main_model base :
  hoare (model_env m) anywhere (boot power_on) (main base)
    (fun r w' => r = 0 /\ verdict_state m w').
Proof.
  pose proof (boot_pull_state m) as H0.
  unfold main.
  do 14 aside_step.
  eapply hoare_bind;
    [apply (isqrt_hoare (model_env m) anywhere); [lia|exact I]|].
  intros root w1 _ [-> _].
  do 6 aside_step.
  eapply hoare_bind; [apply read_name_model; assumption|].
  intros ? w2 _ H2. cbn beta in H2.
  eapply hoare_bind; [apply bitrev_selftest_model_from; assumption|].
  intros ? w3 _ H3. cbn beta in H3.
  apply hoare_ret; [exact I|]. split; [reflexivity|assumption].
Qed.

End MainVerdict.

(** ** C1 *)

(** C1: for any hardware model that shows the ready bit at some poll
    for each of the [N] words, and from any world in which nothing was
    popped, polled or reported yet (the world at power-on, or the one
    the push phase leaves), the pull-and-verify phase runs to its end
    and returns as error tally the number of indices below [N] whose
    popped sample differs from [reverse_bits_k]; exactly the [N]
    samples of the model were popped, one per index, and a diagnostic
    was printed for each mismatching index, in order: a mismatch does
    not stop the loop. *)
Theorem pull_phase_counts_mismatches (m : hw_model) (w : world hw_state) :
  pull_state m 0 w -> polled (hw w) = 0%nat ->
  (forall i, (i < frame)%nat -> exists p, Z.land (stat_at m i p) 1 <> 0) ->
  exists fuel,
    let o := run (model_env m) fuel pull_phase w in
    returned o = Some (Z.of_nat (List.length (mismatches (out_at m) frame))) /\
    samples (log (final o)) = map (out_at m) (seq 0 frame) /\
    printed fmt_mismatch (log (final o)) =
      map (diagnostic (out_at m)) (mismatches (out_at m) frame) /\
    popped (hw (final o)) = frame /\
    Z.of_nat frame = N.
Proof.
  intros H0 Hq Hready.
  assert (Hat : at_word 0 0 w) by (split; [apply H0|exact Hq]).
  destruct (hoare_converges _ _ _ _ _ _
              (pull_phase_model m w H0)
              (pull_phase_converges m (ready_polls m Hready) w Hat))
    as (fuel & errors & E & He & Hp & Hs & Hm & _).
  exists fuel. cbn zeta. unfold tally in He. rewrite He in E.
  split; [exact E|]. split; [exact Hs|]. split; [exact Hm|].
  split; [exact Hp|reflexivity].
Qed.

Lemma pull_phase_counts_mismatches_witness :
  exists fuel,
    let o := run (model_env (faulty_hw 5 0)) fuel pull_phase
               (boot power_on) in
    returned o =
      Some (Z.of_nat
              (List.length (mismatches (out_at (faulty_hw 5 0)) frame))) /\
    samples (log (final o)) = map (out_at (faulty_hw 5 0)) (seq 0 frame) /\
    printed fmt_mismatch (log (final o)) =
      map (diagnostic (out_at (faulty_hw 5 0)))
        (mismatches (out_at (faulty_hw 5 0)) frame) /\
    popped (hw (final o)) = frame /\
    Z.of_nat frame = N.
Proof.
  apply (pull_phase_counts_mismatches (faulty_hw 5 0) (boot power_on)).
  - repeat apply conj; reflexivity.
  - reflexivity.
  - intros i _. exists 0%nat. cbn. discriminate.
Defined.

(** ** C3 *)

(** C3: for any hardware model that shows the ready bit at some poll
    for each of the [N] words, the self-test runs to its end, and it
    has then printed the success message, naming the frame size [N],
    and no failure message when the number of mismatches is zero; and
    the failure message, naming that number, and no success message
    when it is not zero.  [main], on such hardware and with a terminated
    ROM string, runs to its end with the same message in its log and
    returns 0 in the one case and in the other; and whatever the
    environment, a [main] that returned returned 0. *)
Theorem selftest_reports_tally (m : hw_model) :
  (forall i, (i < frame)%nat -> exists p, Z.land (stat_at m i p) 1 <> 0) ->
  (exists fuel,
     let o := run (model_env m) fuel bitrev_selftest (boot power_on) in
     returned o = Some tt /\
     printed fmt_passed (log (final o)) =
       (if tally m frame =? 0 then [[N]] else []) /\
     printed fmt_failed (log (final o)) =
       (if tally m frame =? 0 then [] else [[tally m frame]])) /\
  (forall rom,
     0 <= rom < 2 ^ 32 -> (exists n, rom_at m (name_addr rom n) = 0) ->
     exists fuel,
       let o := run (model_env m) fuel (main rom) (boot power_on) in
       returned o = Some 0 /\
       printed fmt_passed (log (final o)) =
         (if tally m frame =? 0 then [[N]] else []) /\
       printed fmt_failed (log (final o)) =
         (if tally m frame =? 0 then [] else [[tally m frame]])) /\
  (forall rom HW (respond : env HW) (s : HW) fuel' r,
     returned (run respond fuel' (main rom) (boot s)) = Some r -> r = 0) /\
  N = 1024.
Proof.
  intros Hready. pose proof (ready_polls m Hready) as Hr.
  split; [|split; [|split; [|reflexivity]]].
  - destruct (hoare_converges _ _ _ _ _ _
                (bitrev_selftest_model m) (bitrev_selftest_converges m Hr))
      as (fuel & [] & E & _ & _ & _ & Hok & Hko).
    exists fuel. cbn zeta. split; [exact E|]. split; [exact Hok|exact Hko].
  - intros rom Hrom Hend.
    destruct (hoare_converges _ _ _ _ _ _
                (main_model m rom) (main_converges m rom Hrom Hend Hr))
      as (fuel & r & E & -> & _ & _ & _ & Hok & Hko).
    exists fuel. cbn zeta. split; [exact E|]. split; [exact Hok|exact Hko].
  - intros rom HW respond s fuel' r Er.
    exact (hoare_returned _ _ _ _ _ _ _
             (main_exit_code respond rom (boot s)) Er).
Qed.

Lemma selftest_reports_tally_witness :
  (exists fuel,
     let o := run (model_env (faulty_hw 5 0)) fuel bitrev_selftest
                (boot power_on) in
     returned o = Some tt /\
     printed fmt_passed (log (final o)) =
       (if tally (faulty_hw 5 0) frame =? 0 then [[N]] else []) /\
     printed fmt_failed (log (final o)) =
       (if tally (faulty_hw 5 0) frame =? 0 then []
        else [[tally (faulty_hw 5 0) frame]])) /\
  (forall rom,
     0 <= rom < 2 ^ 32 ->
     (exists n, rom_at (faulty_hw 5 0) (name_addr rom n) = 0) ->
     exists fuel,
       let o := run (model_env (faulty_hw 5 0)) fuel (main rom)
                  (boot power_on) in
       returned o = Some 0 /\
       printed fmt_passed (log (final o)) =
         (if tally (faulty_hw 5 0) frame =? 0 then [[N]] else []) /\
       printed fmt_failed (log (final o)) =
         (if tally (faulty_hw 5 0) frame =? 0 then []
          else [[tally (faulty_hw 5 0) frame]])) /\
  (forall rom HW (respond : env HW) (s : HW) fuel' r,
     returned (run respond fuel' (main rom) (boot s)) = Some r -> r = 0) /\
  N = 1024.
Proof.
  apply (selftest_reports_tally (faulty_hw 5 0)).
  intros i _. exists 0%nat. cbn. discriminate.
Defined.

(** ** C9 *)

(** C9: when the hardware model is right at every index below [N] but
    one index [j], and shows the ready bit at some poll for each word,
    the self-test runs to its end and has then printed exactly one
    diagnostic, the one for [j] with the sample got and the value
    expected, then the failure message with count 1, and no success
    message. *)
Theorem selftest_single_fault (m : hw_model) (j : nat) :
  (j < frame)%nat ->
  (forall i, (i < frame)%nat -> i <> j ->
     out_at m i = reverse_bits_k (Z.of_nat i)) ->
  out_at m j <> reverse_bits_k (Z.of_nat j) ->
  (forall i, (i < frame)%nat -> exists p, Z.land (stat_at m i p) 1 <> 0) ->
  mismatches (out_at m) frame = [j] /\
  exists fuel,
    let o := run (model_env m) fuel bitrev_selftest (boot power_on) in
    returned o = Some tt /\
    printed fmt_mismatch (log (final o)) =
      [[Z.of_nat j; out_at m j; reverse_bits_k (Z.of_nat j)]] /\
    printed fmt_failed (log (final o)) = [[1]] /\
    printed fmt_passed (log (final o)) = [].
Proof.
  intros Hj Hgood Hbad Hready.
  assert (Hone : mismatches (out_at m) frame = [j]).
  { apply mismatches_single; [assumption| |].
    - unfold mismatch. apply negb_true_iff, Z.eqb_neq. assumption.
    - intros i Hi Hne. unfold mismatch.
      apply negb_false_iff, Z.eqb_eq. auto. }
  split; [exact Hone|].
  destruct (hoare_converges _ _ _ _ _ _
              (bitrev_selftest_model m)
              (bitrev_selftest_converges m (ready_polls m Hready)))
    as (fuel & [] & E & _ & _ & Hm & Hok & Hko).
  exists fuel. cbn zeta.
  unfold tally in Hok, Hko. rewrite Hone in Hm, Hok, Hko.
  split; [exact E|]. split; [exact Hm|]. split; [exact Hko|exact Hok].
Qed.

Lemma selftest_single_fault_witness :
  mismatches (out_at (faulty_hw 5 0)) frame = [5%nat] /\
  exists fuel,
    let o := run (model_env (faulty_hw 5 0)) fuel bitrev_selftest
               (boot power_on) in
    returned o = Some tt /\
    printed fmt_mismatch (log (final o)) =
      [[Z.of_nat 5; out_at (faulty_hw 5 0) 5;
        reverse_bits_k (Z.of_nat 5)]] /\
    printed fmt_failed (log (final o)) = [[1]] /\
    printed fmt_passed (log (final o)) = [].
Proof.
  apply (selftest_single_fault (faulty_hw 5 0) 5).
  - pose proof frame_value. lia.
  - intros i _ Hne. cbn. apply Nat.eqb_neq in Hne. rewrite Hne. reflexivity.
  - vm_compute. discriminate.
  - intros i _. exists 0%nat. cbn. discriminate.
Defined.

(** The witness in figures: index 5, got 0, expected 640. *)
Example faulty_hw_line :
  [Z.of_nat 5; out_at (faulty_hw 5 0) 5; reverse_bits_k (Z.of_nat 5)]
  = [5; 0; 640].
Proof. reflexivity. Qed.
